(** * The Huffman tree builder of [rhsm/huffman.py]

    A shallow embedding of [src/rhsm/huffman.py] and of the part of Python's
    [heapq] it calls, followed by the properties of [HuffmanNode.build_tree],
    [HuffmanNode.combine], [HuffmanNode.code] and the comparison methods.

    Python objects live in a store (an arena): a reference is the index of
    its object, the attribute assignments of [combine] are in-place updates
    of the store, and object identity ([is]) is equality of references. *)

From Stdlib Require Import ZArith String Ascii ZifyNat.
From stdpp Require Import base list.

Local Open Scope Z_scope.
Local Open Scope nat_scope.

(** ** Python values, exceptions and results *)

(** The values a node can carry ([Union[int, str, dict]], default [None])
    and the values an attribute named [weight] of a foreign operand can
    hold. *)
Inductive pyval :=
  | PyNone
  | PyInt (z : Z)
  | PyStr (s : string)
  | PyDict (items : list (string * Z)).

(** The exceptions the module and its callees raise. *)
Inductive exn := IndexError | AttributeError | TypeError.

(** The result of a call that returns a value or raises. *)
Inductive result (A : Type) :=
  | Ok (a : A)
  | Raise (e : exn).
Arguments Ok {A} a.
Arguments Raise {A} e.

(** ** Python's [heapq] (Lib/heapq.py), over any element type

    [lt] is the [<] of the elements: the only comparison [heapq] makes.
    The while loops take a fuel that bounds their iterations; the wrappers
    pass a fuel that the loops cannot use up ([siftdown_loop_fuel] and
    [siftup_loop_fuel] below). Indexing is in range wherever [heapq] is
    called on a list that has the index. *)
Module heapq.
Section ops.
Context {A : Type} `{!Inhabited A} (lt : A → A → bool).

(** The loop of [_siftdown]: [newitem] moves from [pos] towards
    [startpos] while it is smaller than its parent. *)
Fixpoint siftdown_loop (fuel : nat) (heap : list A) (startpos pos : nat)
    (newitem : A) : list A :=
  match fuel with
  | S fuel' =>
      if bool_decide (startpos < pos) then
        let parentpos := Nat.shiftr (pos - 1) 1 in
        let parent := heap !!! parentpos in
        if lt newitem parent
        then siftdown_loop fuel' (<[pos := parent]> heap) startpos parentpos newitem
        else <[pos := newitem]> heap
      else <[pos := newitem]> heap
  | O => <[pos := newitem]> heap
  end.

Definition _siftdown (heap : list A) (startpos pos : nat) : list A :=
  let newitem := heap !!! pos in
  siftdown_loop pos heap startpos pos newitem.

(** The loop of [_siftup]: the smaller child moves up until [pos] is a
    leaf; it returns the list and the final [pos]. *)
Fixpoint siftup_loop (fuel : nat) (heap : list A) (endpos pos childpos : nat)
    : list A * nat :=
  match fuel with
  | S fuel' =>
      if bool_decide (childpos < endpos) then
        let rightpos := childpos + 1 in
        let childpos :=
          if bool_decide (rightpos < endpos)
             && negb (lt (heap !!! childpos) (heap !!! rightpos))
          then rightpos else childpos in
        siftup_loop fuel' (<[pos := heap !!! childpos]> heap) endpos
          childpos (2 * childpos + 1)
      else (heap, pos)
  | O => (heap, pos)
  end.

Definition _siftup (heap : list A) (pos : nat) : list A :=
  let endpos := length heap in
  let startpos := pos in
  let newitem := heap !!! pos in
  let '(heap, pos) := siftup_loop endpos heap endpos pos (2 * pos + 1) in
  _siftdown (<[pos := newitem]> heap) startpos pos.

Definition heappush (heap : list A) (item : A) : list A :=
  let heap := heap ++ [item] in
  _siftdown heap 0 (length heap - 1).

(** [heappop] raises the [IndexError] of [list.pop] on an empty list. *)
Definition heappop (heap : list A) : result (A * list A) :=
  match last heap with
  | None => Raise IndexError
  | Some lastelt =>
      let heap := removelast heap in
      match heap with
      | returnitem :: _ =>
          let heap := <[0 := lastelt]> heap in
          Ok (returnitem, _siftup heap 0)
      | [] => Ok (lastelt, heap)
      end
  end.

(** [for i in reversed(range(n//2)): _siftup(x, i)] *)
Definition heapify (x : list A) : list A :=
  let n := length x in
  foldl _siftup x (rev (seq 0 (n / 2))).
End ops.
End heapq.

(** ** The class [HuffmanNode] *)

(** A reference to a node: its index in the store. *)
Abbreviation ref := nat (only parsing).

Module HuffmanNode.

(** The attributes [__init__] sets. *)
Record t := __init__ {
  weight : Z;
  value : pyval;
  left : option ref;
  right : option ref;
  parent : option ref
}.

#[export] Instance t_inhabited : Inhabited t :=
  populate (__init__ 0%Z PyNone None None None).

(** The store: every node allocated so far, by reference. *)
Abbreviation store := (list t) (only parsing).

(** [self.parent = p] *)
Definition set_parent (p : option ref) (self : t) : t :=
  __init__ (weight self) (value self) (left self) (right self) p.

(** [combine] allocates the new node and assigns it to the [parent]
    attribute of each child; it returns the new reference and the store. *)
Definition combine (st : store) (left right : ref) : ref * store :=
  let node := length st in
  let st := st ++ [__init__ (weight (st !!! left) + weight (st !!! right))%Z
                     PyNone (Some left) (Some right) None] in
  let st := alter (set_parent (Some node)) left st in
  let st := alter (set_parent (Some node)) right st in
  (node, st).

Definition is_leaf (self : t) : bool :=
  bool_decide (right self = None) && bool_decide (left self = None).

(** [self.parent.left is self] compares references. *)
Definition direction_from_parent (st : store) (self : ref) : result string :=
  match parent (st !!! self) with
  | None => Raise AttributeError
  | Some p =>
      if bool_decide (left (st !!! p) = Some self) then Ok "0"%string
      else Ok "1"%string
  end.

(** The while loop of [code]; [None] when the fuel runs out. *)
Fixpoint code_loop (fuel : nat) (st : store) (turns : list string)
    (next_node : option ref) : option (result string) :=
  match next_node with
  | None => Some (Ok (String.concat "" turns))
  | Some n =>
      match fuel with
      | O => None
      | S fuel' =>
          match parent (st !!! n) with
          | Some _ =>
              match direction_from_parent st n with
              | Ok d => code_loop fuel' st (d :: turns) (parent (st !!! n))
              | Raise e => Some (Raise e)
              end
          | None => code_loop fuel' st turns (parent (st !!! n))
          end
      end
  end.

(** [code]: a chain of parents with no repetition visits at most
    [length st] nodes, so the fuel runs out only on a cyclic chain, where
    the Python loop does not end ([code_fuel_exact]). *)
Definition code (st : store) (self : ref) : option (result string) :=
  if negb (is_leaf (st !!! self)) then Some (Raise AttributeError)
  else code_loop (S (length st)) st [] (Some self).

(** The rich comparisons, on operands that are nodes (the annotated
    type). *)
Definition __lt__ (self other : t) : bool := (weight self <? weight other)%Z.
Definition __le__ (self other : t) : bool := (weight self <=? weight other)%Z.
Definition __gt__ (self other : t) : bool := (weight self >? weight other)%Z.
Definition __ge__ (self other : t) : bool := (weight self >=? weight other)%Z.
Definition __eq__ (self other : t) : bool := (weight self =? weight other)%Z.
Definition __ne__ (self other : t) : bool := negb (weight self =? weight other)%Z.

Definition __hash__ (self : t) : pyval := value self.

(** An element of the queue: the tuple [(node, count)]. *)
Abbreviation entry := (ref * nat)%type (only parsing).

(** [<] on the tuples of the queue, as Python compares tuples: the first
    components are compared with [==] (the same object, or [__eq__]); if
    equal the counts decide, otherwise [__lt__] of the nodes does. *)
Definition entry_lt (st : store) (x y : entry) : bool :=
  if bool_decide (x.1 = y.1) || __eq__ (st !!! x.1) (st !!! y.1)
  then bool_decide (x.2 < y.2)
  else __lt__ (st !!! x.1) (st !!! y.1).

(** [[(node, next(counter)) for node in nodes]], from a counter at [k];
    the counter after it is [k + length nodes]. *)
Fixpoint number (k : nat) (nodes : list ref) : list entry :=
  match nodes with
  | [] => []
  | node :: nodes => (node, k) :: number (S k) nodes
  end.

(** The state of the loop of [build_tree]. *)
Record loop_state := LoopState {
  queue : list entry;
  counter : nat;
  heap : store
}.

(** How a call ends: with a value or an exception, and the store then. *)
Inductive outcome :=
  | Returns (root : ref) (st : store)
  | Raises (e : exn) (st : store).

(** One iteration of [while True]: the call ends, or the loop goes on. *)
Definition loop_body (s : loop_state) : outcome + loop_state :=
  let st := heap s in
  match heapq.heappop (entry_lt st) (queue s) with
  | Raise e => inl (Raises e st)
  | Ok ((left, count), q) =>
      match heapq.heappop (entry_lt st) q with
      | Raise IndexError => inl (Returns left st)
      | Raise e => inl (Raises e st)
      | Ok ((right, count), q) =>
          let '(node, st) := combine st left right in
          let k := counter s in
          inr (LoopState (heapq.heappush (entry_lt st) q (node, k)) (S k) st)
      end
  end.

Fixpoint loop (fuel : nat) (s : loop_state) : option outcome :=
  match fuel with
  | O => None
  | S fuel' =>
      match loop_body s with
      | inl o => Some o
      | inr s' => loop fuel' s'
      end
  end.

(** The state in which the loop is entered. *)
Definition init (st : store) (nodes : list ref) : loop_state :=
  let queue := number 0 nodes in
  LoopState (heapq.heapify (entry_lt st) queue) (length nodes) st.

(** [build_tree]: every iteration but the last takes one entry off the
    queue, so [S (length nodes)] iterations are never used up
    ([build_tree_total]). *)
Definition build_tree (st : store) (nodes : list ref) : option outcome :=
  loop (S (length nodes)) (init st nodes).

End HuffmanNode.

(** ** Comparisons with an operand of any type

    The rich comparison methods read [other.weight] and compare the node's
    integer weight with it, by Python's rules for [x OP y] with [x] an
    [int]: the method of the class of [y] for the reflected operator is
    asked when [y] is no plain [int] (first for an instance of a subclass of
    [int], and after [int] itself has declined for any other object), the
    comparison of integers applies when [y] is an [int], and when nobody
    answers [==] and [!=] fall back on identity while the orderings raise a
    [TypeError]. *)
Module Dynamic.

(** The six comparison operators. *)
Inductive cmp := OpLt | OpLe | OpGt | OpGe | OpEq | OpNe.

(** The operator whose method is asked of the right operand: [x < y] asks
    [y.__gt__(x)]. *)
Definition reflected (op : cmp) : cmp :=
  match op with
  | OpLt => OpGt
  | OpLe => OpGe
  | OpGt => OpLt
  | OpGe => OpLe
  | OpEq => OpEq
  | OpNe => OpNe
  end.

Definition is_ordering (op : cmp) : bool :=
  match op with
  | OpEq | OpNe => false
  | _ => true
  end.

(** The comparison of two integers. *)
Definition int_cmp (op : cmp) (x y : Z) : bool :=
  match op with
  | OpLt => (x <? y)%Z
  | OpLe => (x <=? y)%Z
  | OpGt => (x >? y)%Z
  | OpGe => (x >=? y)%Z
  | OpEq => (x =? y)%Z
  | OpNe => negb (x =? y)%Z
  end.

(** What a comparison returns: a [bool], or whatever other object the
    method of a class returned. *)
Inductive answer := Bool (b : bool) | Object (id : nat).

(** An object as an [int] meets it in a comparison: the integer it is,
    when it is an [int]; and what the comparison methods of its class
    answer to an [int], [None] when the class has no such method of its
    own or the method returns [NotImplemented]. *)
Record object := Obj {
  as_int : option Z;
  method : cmp → Z → option (result answer)
}.

(** [x OP y] for an [int] [x]. *)
Definition compare (op : cmp) (x : Z) (y : object) : result answer :=
  match method y (reflected op) x with
  | Some r => r
  | None =>
      match as_int y with
      | Some z => Ok (Bool (int_cmp op x z))
      | None =>
          match op with
          | OpEq => Ok (Bool false)
          | OpNe => Ok (Bool true)
          | _ => Raise TypeError
          end
      end
  end.

(** An [int]. *)
Definition int_obj (z : Z) : object := Obj (Some z) (λ _ _, None).

(** [None], an [int], a [str] or a [dict] as an object: the classes of
    [None], [str] and [dict] answer [NotImplemented] to an [int], whatever
    the operator. *)
Definition of_pyval (v : pyval) : object :=
  match v with
  | PyInt z => int_obj z
  | _ => Obj None (λ _ _, None)
  end.

(** The [complex] number [1+0j]: [complex] has [==] and [!=] against an
    [int], by value, and no ordering. *)
Definition complex_one : object :=
  Obj None (λ op x,
    match op with
    | OpEq => Some (Ok (Bool (x =? 1)%Z))
    | OpNe => Some (Ok (Bool (negb (x =? 1)%Z)))
    | _ => None
    end).

(** An operand is seen through what the methods inspect: whether it has
    an attribute [weight], and the object that attribute holds. *)
Record operand := Operand { attr_weight : option object }.

(** A node as an operand: it has a weight, an [int]. *)
Definition of_node (n : HuffmanNode.t) : operand :=
  Operand (Some (int_obj (HuffmanNode.weight n))).

(** [self.weight OP other.weight]: the attribute access raises
    [AttributeError] when [other] has no [weight]. *)
Definition order (op : cmp) (self : HuffmanNode.t) (other : operand)
    : result answer :=
  match attr_weight other with
  | None => Raise AttributeError
  | Some v => compare op (HuffmanNode.weight self) v
  end.

Definition __lt__ := order OpLt.
Definition __le__ := order OpLe.
Definition __gt__ := order OpGt.
Definition __ge__ := order OpGe.

(** [__eq__] and [__ne__] test [hasattr(other, "weight")] first. *)
Definition __eq__ (self : HuffmanNode.t) (other : operand) : result answer :=
  match attr_weight other with
  | None => Ok (Bool false)
  | Some v => compare OpEq (HuffmanNode.weight self) v
  end.

Definition __ne__ (self : HuffmanNode.t) (other : operand) : result answer :=
  match attr_weight other with
  | None => Ok (Bool true)
  | Some v => compare OpNe (HuffmanNode.weight self) v
  end.

(** The check the builtin [hash] makes on what [__hash__] returned: a
    value that is not an [int] is a [TypeError]. *)
Definition hash_check (v : pyval) : result unit :=
  match v with
  | PyInt _ => Ok ()
  | _ => Raise TypeError
  end.

(** [hash(node)] *)
Definition hash (self : HuffmanNode.t) : result unit :=
  hash_check (HuffmanNode.__hash__ self).

End Dynamic.

Import HuffmanNode.

(** An operand that a node cannot be ordered against: [weight] is absent,
    or it holds an object that is no [int] and whose class has no ordering
    method that answers the weight of the node. *)
Definition incomparable (self : t) (other : Dynamic.operand) : Prop :=
  match Dynamic.attr_weight other with
  | None => True
  | Some v =>
      Dynamic.as_int v = None
      ∧ ∀ op, Dynamic.is_ordering op = true →
          Dynamic.method v op (weight self) = None
  end.

(** ** Vocabulary of the specification *)

(** A reference that denotes an object of the store. *)
Definition valid (st : store) (a : ref) : Prop := a < length st.

(** A binary tree of references: what the [left] and [right] attributes
    span below a node. *)
Inductive tree :=
  | Leaf (a : ref)
  | Internal (a : ref) (l r : tree).

Definition root (u : tree) : ref :=
  match u with
  | Leaf a => a
  | Internal a _ _ => a
  end.

(** The leaves and the internal nodes, left to right, with repetitions. *)
Fixpoint leaves (u : tree) : list ref :=
  match u with
  | Leaf a => [a]
  | Internal _ l r => leaves l ++ leaves r
  end.

Fixpoint internals (u : tree) : list ref :=
  match u with
  | Leaf _ => []
  | Internal a l r => a :: internals l ++ internals r
  end.

(** The sum of the weights of a list of nodes. *)
Definition total_weight (st : store) (nodes : list ref) : Z :=
  foldr (λ a acc, weight (st !!! a) + acc)%Z 0%Z nodes.

(** [shape st u]: [u] is the tree that the [left] and [right] attributes
    of the store span below [root u]. *)
Fixpoint shape (st : store) (u : tree) : Prop :=
  match u with
  | Leaf a => valid st a ∧ is_leaf (st !!! a) = true
  | Internal a l r =>
      valid st a ∧ left (st !!! a) = Some (root l)
      ∧ right (st !!! a) = Some (root r) ∧ shape st l ∧ shape st r
  end.

(** A path from a node: [false] follows [left], [true] follows [right]. *)
Fixpoint follow (st : store) (a : ref) (path : list bool) : option ref :=
  match path with
  | [] => Some a
  | d :: path =>
      match (if d : bool then right (st !!! a) else left (st !!! a)) with
      | Some c => follow st c path
      | None => None
      end
  end.

(** The subtree at a path. *)
Fixpoint subtree (u : tree) (path : list bool) {struct path} : option tree :=
  match path, u with
  | [], _ => Some u
  | d :: path, Internal _ l r => subtree (if d : bool then r else l) path
  | _ :: _, Leaf _ => None
  end.


(** The code a path spells: one character per turn. *)
Definition turn (d : bool) : string := if d then "1"%string else "0"%string.

Definition spell (path : list bool) : string :=
  String.concat "" (turn <$> path).

(** A string over the alphabet of the two characters 0 and 1. *)
Fixpoint binary (s : string) : Prop :=
  match s with
  | EmptyString => True
  | String c s => (c = "0"%char ∨ c = "1"%char) ∧ binary s
  end.

(** The tree without its references. *)
Inductive skeleton := Tip | Fork (l r : skeleton).

Fixpoint erase (u : tree) : skeleton :=
  match u with
  | Leaf _ => Tip
  | Internal _ l r => Fork (erase l) (erase r)
  end.

(** The key an entry of the queue is ordered by, and the order of keys:
    by weight, and by count among equal weights. *)
Definition key (st : store) (x : entry) : Z * nat := (weight (st !!! x.1), x.2).

Definition key_lt (k1 k2 : Z * nat) : Prop :=
  (k1.1 < k2.1)%Z ∨ (k1.1 = k2.1 ∧ k1.2 < k2.2).

(** The states the loop of [build_tree] passes through. *)
Inductive reachable (st : store) (nodes : list ref) : loop_state → Prop :=
  | reachable_init : reachable st nodes (init st nodes)
  | reachable_step s s' :
      reachable st nodes s → loop_body s = inr s' → reachable st nodes s'.

(** [graft T n u]: the tree of [n] becomes [u]. *)
Definition graft (T : ref → tree) (n : ref) (u : tree) : ref → tree :=
  λ a, if decide (a = n) then u else T a.

(** The invariant of the loop of [build_tree st0 nodes]: every entry of the
    queue is the root of a tree [T] of the store; together the trees have
    the input nodes as leaves and the nodes allocated since as internal
    nodes, and the weight of a root is the sum over its leaves. *)
Record tree_inv (st0 : store) (nodes : list ref) (T : ref → tree)
    (s : loop_state) : Prop := TreeInv {
  inv_length : length st0 ≤ length (heap s);
  inv_shape :
    Forall (λ e, root (T e.1) = e.1 ∧ shape (heap s) (T e.1)) (queue s);
  inv_leaves : queue s ≫= (λ e, leaves (T e.1)) ≡ₚ nodes;
  inv_internals :
    queue s ≫= (λ e, internals (T e.1))
    ≡ₚ seq (length st0) (length (heap s) - length st0);
  inv_weight :
    Forall (λ e, weight (heap s !!! e.1) = total_weight st0 (leaves (T e.1)))
      (queue s)
}.

(** The children of the internal nodes of a tree. *)
Fixpoint children (u : tree) : list ref :=
  match u with
  | Leaf _ => []
  | Internal _ l r => root l :: root r :: children l ++ children r
  end.

(** The invariant of the loop on the [parent] attributes: a root that is
    not a leaf has no parent, and the parent of a child of the forest is
    an internal node of the forest that has it as left or right child. *)
Record parent_inv (T : ref → tree) (s : loop_state) : Prop := ParentInv {
  inv_parent_root :
    Forall (λ e, is_leaf (heap s !!! e.1) = false →
                 parent (heap s !!! e.1) = None) (queue s);
  inv_parent_child :
    ∀ x, x ∈ queue s ≫= (λ e, children (T e.1)) →
      ∃ p, parent (heap s !!! x) = Some p
           ∧ p ∈ queue s ≫= (λ e, internals (T e.1))
           ∧ (left (heap s !!! p) = Some x ∨ right (heap s !!! p) = Some x)
}.

(** The same of one tree, when the loop has ended: the [parent] attributes
    lead from every node of [u] up to its root, along [u]. *)
Record linked (st : store) (u : tree) : Prop := Linked {
  linked_shape : shape st u;
  linked_nodup : NoDup (internals u);
  linked_size : length (internals u) < length st;
  linked_root :
    is_leaf (st !!! root u) = false → parent (st !!! root u) = None;
  linked_child :
    ∀ x, x ∈ children u →
      ∃ p, parent (st !!! x) = Some p ∧ p ∈ internals u
           ∧ (left (st !!! p) = Some x ∨ right (st !!! p) = Some x)
}.

(** ** The heap order of a list *)

(** [desc s j]: position [j] lies below position [s] in the implicit tree
    of a list, where the parent of [j] is [(j - 1) >> 1]. *)
Inductive desc (s : nat) : nat → Prop :=
  | desc_refl : desc s s
  | desc_child j : 0 < j → desc s (Nat.div2 (j - 1)) → desc s j.

Section heap_order.
Context {A : Type} `{!Inhabited A} (lt : A → A → bool).

(** From position [s] on no element is smaller than its parent. *)
Definition heap_from (h : list A) (s : nat) : Prop :=
  ∀ j, j < length h → 0 < j → s ≤ Nat.div2 (j - 1) →
    lt (h !!! j) (h !!! Nat.div2 (j - 1)) = false.

(** The invariant of [heapq]: no element is smaller than its parent. *)
Definition heap_ordered (h : list A) : Prop := heap_from h 0.

(** The heap order from [s] on with a hole at [pos]: it holds between
    positions other than [pos], and no child of [pos] is smaller than the
    parent of [pos]. What the list holds at [pos] does not matter. *)
Definition hole_inv (h : list A) (s pos : nat) : Prop :=
  (∀ j, j < length h → 0 < j → s ≤ Nat.div2 (j - 1) →
     j ≠ pos → Nat.div2 (j - 1) ≠ pos →
     lt (h !!! j) (h !!! Nat.div2 (j - 1)) = false)
  ∧ (∀ j, j < length h → 0 < j → Nat.div2 (j - 1) = pos → s < pos →
       lt (h !!! j) (h !!! Nat.div2 (pos - 1)) = false).

(** No child of [pos] is smaller than [x]. *)
Definition fits (h : list A) (pos : nat) (x : A) : Prop :=
  ∀ j, j < length h → 0 < j → Nat.div2 (j - 1) = pos → lt (h !!! j) x = false.
End heap_order.

(** The invariant of the loop of [build_tree] on the queue: it is in heap
    order, its nodes are in the store, and its counts are distinct and
    below the counter. *)
Record queue_inv (s : loop_state) : Prop := QueueInv {
  inv_heap : heap_ordered (entry_lt (heap s)) (queue s);
  inv_valid : Forall (λ e, valid (heap s) e.1) (queue s);
  inv_counts : Forall (λ e, e.2 < counter s) (queue s);
  inv_nodup : NoDup (queue s).*2
}.

(** ** Two runs of [build_tree] *)

(** Two trees of the same form whose leaves correspond by [ρ]. *)
Fixpoint similar (ρ : ref → ref → Prop) (u1 u2 : tree) : Prop :=
  match u1, u2 with
  | Leaf a, Leaf b => ρ a b
  | Internal _ l1 r1, Internal _ l2 r2 => similar ρ l1 l2 ∧ similar ρ r1 r2
  | _, _ => False
  end.

(** The nodes that stand at the same index of two input lists. *)
Definition paired (nodes1 nodes2 : list ref) (a b : ref) : Prop :=
  ∃ i, nodes1 !! i = Some a ∧ nodes2 !! i = Some b.

(** ** Runs of [build_tree] on any list of nodes *)

(** A node that a call on the store [st] allocated, seen in a later store
    [st']. *)
Definition allocated (st st' : store) (n : ref) : Prop :=
  length st ≤ n ∧ n < length st'.

(** [grown st st' u]: [u] is the tree that a call on the store [st] grew
    above nodes of [st]: its internal nodes are nodes the call allocated,
    with the subtrees of [u] below their [left] and [right] in [st'], and
    its leaves are nodes of [st], leaves of the store or not. *)
Fixpoint grown (st st' : store) (u : tree) : Prop :=
  match u with
  | Leaf a => valid st a
  | Internal a l r =>
      allocated st st' a ∧ left (st' !!! a) = Some (root l)
      ∧ right (st' !!! a) = Some (root r) ∧ grown st st' l ∧ grown st st' r
  end.

(** The invariant of the loop of [build_tree st0 nodes] for any list of
    nodes: every entry of the queue is the root of a tree grown above the
    input nodes, and together the trees have the input nodes as leaves. *)
Record forest_inv (st0 : store) (nodes : list ref) (T : ref → tree)
    (s : loop_state) : Prop := ForestInv {
  forest_length : length st0 ≤ length (heap s);
  forest_grown :
    Forall (λ e, root (T e.1) = e.1 ∧ grown st0 (heap s) (T e.1)) (queue s);
  forest_leaves : queue s ≫= (λ e, leaves (T e.1)) ≡ₚ nodes
}.

(** Two lists that hold their nodes alike: of the same length, and with
    the same node at two indices of the one exactly when the other has the
    same node at these indices. *)
Definition same_aliasing (nodes1 nodes2 : list ref) : Prop :=
  length nodes1 = length nodes2
  ∧ ∀ i j a a' b b',
      nodes1 !! i = Some a → nodes1 !! j = Some a' →
      nodes2 !! i = Some b → nodes2 !! j = Some b' → (a = a' ↔ b = b').

(** The nodes of two runs that correspond: input nodes at the same index,
    or the nodes that the runs allocated at the same iteration. *)
Definition corr (st1 st2 : store) (nodes1 nodes2 : list ref) (a b : ref)
    : Prop :=
  paired nodes1 nodes2 a b
  ∨ (length st1 ≤ a ∧ length st2 ≤ b ∧ a - length st1 = b - length st2).

(** A node that is the left or right child of a node that the call on [st]
    allocated. *)
Definition merged (st st' : store) (a : ref) : Prop :=
  ∃ n, allocated st st' n
       ∧ (left (st' !!! n) = Some a ∨ right (st' !!! n) = Some a).

(** The states of two runs that correspond: the same counter and number of
    allocated nodes; queues that hold corresponding nodes of equal weight
    with equal counts, position by position; allocated nodes that
    correspond have children that correspond; and so have the parents of
    corresponding nodes that were merged, while an allocated node that was
    not has no parent in either run. *)
Record run_sim (st1 st2 : store) (nodes1 nodes2 : list ref)
    (s1 s2 : loop_state) : Prop := RunSim {
  rs_counter : counter s1 = counter s2;
  rs_len1 : length st1 ≤ length (heap s1);
  rs_len2 : length st2 ≤ length (heap s2);
  rs_alloc : length (heap s1) - length st1 = length (heap s2) - length st2;
  rs_queue :
    Forall2 (λ e1 e2, corr st1 st2 nodes1 nodes2 e1.1 e2.1 ∧ e1.2 = e2.2
                      ∧ valid (heap s1) e1.1 ∧ valid (heap s2) e2.1
                      ∧ weight (heap s1 !!! e1.1) = weight (heap s2 !!! e2.1))
      (queue s1) (queue s2);
  rs_children :
    ∀ n1 n2, corr st1 st2 nodes1 nodes2 n1 n2 → allocated st1 (heap s1) n1 →
      ∃ l1 r1 l2 r2,
        left (heap s1 !!! n1) = Some l1 ∧ right (heap s1 !!! n1) = Some r1
        ∧ left (heap s2 !!! n2) = Some l2 ∧ right (heap s2 !!! n2) = Some r2
        ∧ corr st1 st2 nodes1 nodes2 l1 l2 ∧ corr st1 st2 nodes1 nodes2 r1 r2
        ∧ l1 < n1 ∧ r1 < n1;
  rs_parent :
    ∀ a b, corr st1 st2 nodes1 nodes2 a b → merged st1 (heap s1) a →
      ∃ p q, parent (heap s1 !!! a) = Some p ∧ parent (heap s2 !!! b) = Some q
             ∧ corr st1 st2 nodes1 nodes2 p q ∧ allocated st1 (heap s1) p
             ∧ a < p;
  rs_root :
    ∀ a b, corr st1 st2 nodes1 nodes2 a b → allocated st1 (heap s1) a →
      (parent (heap s1 !!! a) = None ∧ parent (heap s2 !!! b) = None)
      ∨ merged st1 (heap s1) a;
  rs_inputs :
    ∀ a, a ∈ nodes1 → a ∈ (queue s1).*1 ∨ merged st1 (heap s1) a;
  rs_last :
    length st1 < length (heap s1) → length (heap s1) - 1 ∈ (queue s1).*1;
  rs_count :
    length (queue s1) + (length (heap s1) - length st1) = length nodes1
}.

(** ** The families, the codes and the weighted path length of a tree *)










(** * Properties *)

#[local] Arguments combine : simpl never.
#[local] Arguments heapq.heappush : simpl never.
#[local] Arguments heapq.heappop : simpl never.
#[local] Arguments heapq.heapify : simpl never.
#[local] Arguments heapq._siftup : simpl never.
#[local] Arguments heapq._siftdown : simpl never.

(** ** [combine] and the store *)

Lemma combine_ref st l r : (combine st l r).1 = length st.
Proof. done. Qed.

Lemma combine_length st l r : length (combine st l r).2 = S (length st).
Proof.
  unfold combine; simpl. rewrite !length_alter, length_app; simpl. lia.
Qed.

Lemma combine_new st l r :
  valid st l → valid st r →
  (combine st l r).2 !!! length st
  = __init__ (weight (st !!! l) + weight (st !!! r)) PyNone (Some l) (Some r) None.
Proof.
  unfold valid, combine; intros Hl Hr; simpl.
  rewrite !list_lookup_total_alter_ne by lia.
  by apply list_lookup_total_middle.
Qed.

Lemma combine_old st l r a :
  valid st a →
  (combine st l r).2 !!! a
  = if bool_decide (a = l ∨ a = r)
    then set_parent (Some (length st)) (st !!! a) else st !!! a.
Proof.
  unfold valid, combine; intros Ha; simpl.
  set (n := __init__ _ _ _ _ _). set (f := set_parent _).
  assert (Hst : (st ++ [n]) !!! a = st !!! a) by by apply lookup_total_app_l.
  assert (Hlen : a < length (st ++ [n])) by (rewrite length_app; simpl; lia).
  assert (Hf : ∀ x, f (f x) = f x) by by intros [].
  destruct (decide (a = r)) as [<-|Hr], (decide (a = l)) as [<-|Hl].
  - rewrite list_lookup_total_alter_eq by by rewrite length_alter.
    rewrite list_lookup_total_alter_eq, Hst, Hf by done.
    by rewrite bool_decide_eq_true_2 by auto.
  - rewrite list_lookup_total_alter_eq by by rewrite length_alter.
    rewrite list_lookup_total_alter_ne, Hst by done.
    by rewrite bool_decide_eq_true_2 by auto.
  - rewrite list_lookup_total_alter_ne by done.
    rewrite list_lookup_total_alter_eq, Hst by done.
    by rewrite bool_decide_eq_true_2 by auto.
  - rewrite !list_lookup_total_alter_ne, Hst by done.
    by rewrite bool_decide_eq_false_2 by (intros [?|?]; done).
Qed.

(** What [combine] leaves alone in the nodes that were there. *)
Lemma combine_frame st l r a :
  valid st a →
  let n := (combine st l r).2 !!! a in
  weight n = weight (st !!! a) ∧ value n = value (st !!! a)
  ∧ left n = left (st !!! a) ∧ right n = right (st !!! a)
  ∧ is_leaf n = is_leaf (st !!! a).
Proof.
  intros Ha; cbv zeta. rewrite combine_old by done. unfold is_leaf.
  case_bool_decide; [|done]. by destruct (st !!! a).
Qed.

Lemma combine_parent st l r a :
  valid st a →
  parent ((combine st l r).2 !!! a)
  = if bool_decide (a = l ∨ a = r) then Some (length st) else parent (st !!! a).
Proof.
  intros Ha. rewrite combine_old by done.
  case_bool_decide; [|done]. by destruct (st !!! a).
Qed.

(** ** [combine] *)

(** C4: [combine st L R] allocates a node whose weight is the sum of the
    weights of [L] and [R], with [L] as left and [R] as right child; every
    node that was there keeps its weight, value, left and right, and its
    parent too unless it is [L] or [R], whose parent becomes the new node.
    In the loop of [build_tree] the node dequeued first is the [L] of the
    call and the node dequeued second its [R]. *)
Theorem combine_spec st L R :
  valid st L → valid st R →
  let node := (combine st L R).1 in
  let st' := (combine st L R).2 in
  node = length st ∧ length st' = S (length st)
  ∧ weight (st' !!! node) = (weight (st !!! L) + weight (st !!! R))%Z
  ∧ left (st' !!! node) = Some L ∧ right (st' !!! node) = Some R
  ∧ (∀ a, valid st a →
       weight (st' !!! a) = weight (st !!! a)
       ∧ value (st' !!! a) = value (st !!! a)
       ∧ left (st' !!! a) = left (st !!! a)
       ∧ right (st' !!! a) = right (st !!! a)
       ∧ parent (st' !!! a)
         = if bool_decide (a = L ∨ a = R) then Some node else parent (st !!! a))
  ∧ (∀ s cl cr q1 q2,
       heap s = st →
       heapq.heappop (entry_lt st) (queue s) = Ok ((L, cl), q1) →
       heapq.heappop (entry_lt st) q1 = Ok ((R, cr), q2) →
       loop_body s
       = inr (LoopState (heapq.heappush (entry_lt st') q2 (node, counter s))
                (S (counter s)) st')).
Proof.
  intros HL HR node st'. unfold node, st'.
  rewrite combine_ref, combine_length, combine_new by done.
  split_and!; try done.
  - intros a Ha. pose proof (combine_frame st L R a Ha) as Hf. cbv zeta in Hf.
    rewrite combine_parent by done. by destruct Hf as (-> & -> & -> & -> & _).
  - intros s cl cr q1 q2 <- H1 H2. unfold loop_body. by rewrite H1, H2.
Qed.

Lemma combine_spec_witness :
  let st := [__init__ 3 (PyStr "A") None None None;
             __init__ 7 (PyStr "B") None None None] in
  weight ((combine st 0 1).2 !!! (combine st 0 1).1) = 10%Z
  ∧ parent ((combine st 0 1).2 !!! 0) = Some 2
  ∧ value ((combine st 0 1).2 !!! 0) = PyStr "A".
Proof.
  intros st.
  destruct (combine_spec st 0 1) as (_ & _ & Hw & _ & _ & Hold & _);
    [unfold valid; simpl; lia..|].
  split; [exact Hw|].
  destruct (Hold 0) as (_ & Hv & _ & _ & Hp); [unfold valid; simpl; lia|].
  split; [exact Hp|exact Hv].
Defined.

(** ** [heapq]: the loops end, and the list keeps its elements *)

Section heapq_perm.
Context {A : Type} `{!Inhabited A} (lt : A → A → bool).
Implicit Types (heap : list A) (x : A).

Lemma parentpos_lt pos : 0 < pos → Nat.div2 (pos - 1) < pos.
Proof.
  intros Hpos. rewrite Nat.div2_div. apply Nat.Div0.div_lt_upper_bound; lia.
Qed.

(** More fuel than [pos] changes nothing: [_siftdown] passes enough. *)
Lemma siftdown_loop_fuel f1 f2 heap startpos pos x :
  pos ≤ f1 → pos ≤ f2 →
  heapq.siftdown_loop lt f1 heap startpos pos x
  = heapq.siftdown_loop lt f2 heap startpos pos x.
Proof.
  revert f2 heap pos.
  induction f1 as [|f1 IH]; intros [|f2] heap pos H1 H2; simpl;
    try (case_bool_decide; [lia|done]).
  - done.
  - case_bool_decide; [|done]. destruct (lt x _); [|done].
    pose proof (parentpos_lt pos). apply IH; lia.
Qed.

(** More fuel than [endpos - childpos] changes nothing: [_siftup] passes
    enough. *)
Lemma siftup_loop_fuel f1 f2 heap endpos pos childpos :
  endpos - childpos ≤ f1 → endpos - childpos ≤ f2 →
  heapq.siftup_loop lt f1 heap endpos pos childpos
  = heapq.siftup_loop lt f2 heap endpos pos childpos.
Proof.
  revert f2 heap pos childpos.
  induction f1 as [|f1 IH]; intros [|f2] heap pos childpos H1 H2; simpl;
    try (case_bool_decide; [lia|done]).
  - done.
  - case_bool_decide; [|done]. apply IH; case_match; lia.
Qed.

Lemma insert_swap_perm heap i j x :
  i < length heap → j < length heap → i ≠ j →
  <[j := x]> (<[i := heap !!! j]> heap) ≡ₚ <[i := x]> heap.
Proof.
  intros Hi Hj Hij.
  rewrite <-(list_insert_insert_eq heap i (heap !!! j) x).
  apply Permutation_insert_swap.
  - by apply list_lookup_insert_eq.
  - rewrite list_lookup_insert_ne by done. by apply list_lookup_lookup_total_lt.
Qed.

Lemma siftdown_loop_length fuel heap startpos pos x :
  length (heapq.siftdown_loop lt fuel heap startpos pos x) = length heap.
Proof.
  revert heap pos; induction fuel as [|fuel IH]; intros heap pos; simpl.
  { by rewrite length_insert. }
  repeat case_match; rewrite ?IH, ?length_insert; done.
Qed.

Lemma siftdown_loop_perm fuel heap startpos pos x :
  pos < length heap →
  heapq.siftdown_loop lt fuel heap startpos pos x ≡ₚ <[pos := x]> heap.
Proof.
  revert heap pos; induction fuel as [|fuel IH]; intros heap pos Hpos; simpl.
  { done. }
  case_bool_decide as Hs; [|done]. destruct (lt x _); [|done].
  pose proof (parentpos_lt pos).
  rewrite IH by (rewrite length_insert; lia).
  apply insert_swap_perm; lia.
Qed.

Lemma siftdown_length heap startpos pos :
  length (heapq._siftdown lt heap startpos pos) = length heap.
Proof. apply siftdown_loop_length. Qed.

Lemma siftdown_perm heap startpos pos :
  pos < length heap → heapq._siftdown lt heap startpos pos ≡ₚ heap.
Proof.
  intros Hpos. unfold heapq._siftdown. rewrite siftdown_loop_perm by done.
  by rewrite list_insert_id by by apply list_lookup_lookup_total_lt.
Qed.

Lemma siftup_loop_spec fuel heap endpos pos childpos :
  pos < length heap → endpos ≤ length heap → pos < childpos →
  let r := heapq.siftup_loop lt fuel heap endpos pos childpos in
  length r.1 = length heap ∧ r.2 < length heap
  ∧ ∀ x, <[r.2 := x]> r.1 ≡ₚ <[pos := x]> heap.
Proof.
  revert heap pos childpos; induction fuel as [|fuel IH];
    intros heap pos childpos Hpos Hend Hc; simpl; [done|].
  case_bool_decide as Hlt; [|done].
  set (c := if _ && _ then _ else _).
  assert (childpos ≤ c < endpos) as Hcc.
  { unfold c. destruct (bool_decide (childpos + 1 < endpos)) eqn:E; simpl.
    - apply bool_decide_eq_true in E. case_match; lia.
    - lia. }
  destruct (IH (<[pos := heap !!! c]> heap) c (2 * c + 1)) as (Hl & Hp & Hperm).
  { rewrite length_insert; lia. }
  { rewrite length_insert; lia. }
  { lia. }
  rewrite length_insert in Hl, Hp. split_and!; [done..|].
  intros x. rewrite Hperm. apply insert_swap_perm; lia.
Qed.

Lemma siftup_length heap pos :
  pos < length heap → length (heapq._siftup lt heap pos) = length heap.
Proof.
  intros Hpos. unfold heapq._siftup.
  pose proof (siftup_loop_spec (length heap) heap (length heap) pos
                (2 * pos + 1)) as Hs.
  destruct (heapq.siftup_loop _ _ _ _ _ _) as [h p]; simpl in Hs.
  destruct Hs as (Hl & _ & _); [lia..|].
  by rewrite siftdown_length, length_insert.
Qed.

Lemma siftup_perm heap pos :
  pos < length heap → heapq._siftup lt heap pos ≡ₚ heap.
Proof.
  intros Hpos. unfold heapq._siftup.
  pose proof (siftup_loop_spec (length heap) heap (length heap) pos
                (2 * pos + 1)) as Hs.
  destruct (heapq.siftup_loop _ _ _ _ _ _) as [h p]; simpl in Hs.
  destruct Hs as (Hl & Hp & Hperm); [lia..|].
  rewrite siftdown_perm by (rewrite length_insert; lia).
  rewrite Hperm. by rewrite list_insert_id by by apply list_lookup_lookup_total_lt.
Qed.

Lemma heappush_perm heap x : heapq.heappush lt heap x ≡ₚ x :: heap.
Proof.
  unfold heapq.heappush. rewrite siftdown_perm.
  - by rewrite Permutation_app_comm.
  - rewrite length_app; simpl; lia.
Qed.

Lemma heappop_nil : heapq.heappop lt [] = Raise IndexError.
Proof. done. Qed.

(** On a list that is not empty [heappop] returns its first element, and
    the list keeps the others. *)
Lemma heappop_cons x heap :
  ∃ heap', heapq.heappop lt (x :: heap) = Ok (x, heap') ∧ heap' ≡ₚ heap.
Proof.
  unfold heapq.heappop.
  destruct (last (x :: heap)) as [lastelt|] eqn:Hlast;
    [|by apply last_None in Hlast].
  apply last_Some in Hlast as [l' Hl']. rewrite Hl', removelast_last.
  destruct l' as [|y l']; simplify_eq/=.
  - by eexists.
  - eexists; split; [done|].
    rewrite siftup_perm by (simpl; lia).
    by rewrite Permutation_app_comm.
Qed.

Lemma heappop_Ok heap x heap' :
  heapq.heappop lt heap = Ok (x, heap') →
  heap !! 0 = Some x ∧ x :: heap' ≡ₚ heap.
Proof.
  destruct heap as [|y heap]; [done|].
  destruct (heappop_cons y heap) as (h & -> & Hperm).
  intros [= <- <-]. by rewrite Hperm.
Qed.

Lemma heappop_Raise heap e :
  heapq.heappop lt heap = Raise e → heap = [] ∧ e = IndexError.
Proof.
  destruct heap as [|y heap]; [by intros [= <-]|].
  by destruct (heappop_cons y heap) as (h & -> & _).
Qed.

Lemma foldl_siftup_perm heap (idx : list nat) :
  Forall (λ i, i < length heap) idx →
  foldl (heapq._siftup lt) heap idx ≡ₚ heap.
Proof.
  revert heap; induction idx as [|i idx IH]; intros heap Hidx; simpl; [done|].
  apply Forall_cons in Hidx as [Hi Hidx].
  rewrite IH, siftup_perm; [done..|].
  by rewrite siftup_length.
Qed.

Lemma heapify_perm heap : heapq.heapify lt heap ≡ₚ heap.
Proof.
  apply foldl_siftup_perm, Forall_forall. intros i Hi.
  apply list_elem_of_In, in_rev, in_seq in Hi.
  pose proof (Nat.Div0.div_le_upper_bound (length heap) 2 (length heap)). lia.
Qed.
End heapq_perm.

(** ** [heapq]: the heap order *)


Lemma div2_parent j : Nat.div2 (j - 1) = (j - 1) / 2.
Proof. apply Nat.div2_div. Qed.

Lemma desc_le s j : desc s j → s ≤ j.
Proof.
  induction 1 as [|j Hj _ IH]; [done|].
  rewrite div2_parent in IH.
  pose proof (Nat.Div0.div_le_upper_bound (j - 1) 2 j). lia.
Qed.

Lemma desc_parent s j : desc s j → s < j → desc s (Nat.div2 (j - 1)).
Proof. destruct 1; [lia|done]. Qed.

Lemma desc_left s j : desc s j → desc s (2 * j + 1).
Proof.
  intros Hj. apply desc_child; [lia|].
  replace (Nat.div2 (2 * j + 1 - 1)) with j; [done|].
  rewrite div2_parent. apply Nat.div_unique with 0; lia.
Qed.

Lemma desc_right s j : desc s j → desc s (2 * j + 1 + 1).
Proof.
  intros Hj. apply desc_child; [lia|].
  replace (Nat.div2 (2 * j + 1 + 1 - 1)) with j; [done|].
  rewrite div2_parent. apply Nat.div_unique with 1; lia.
Qed.

Lemma desc_0 j : desc 0 j.
Proof.
  induction j as [j IH] using lt_wf_ind.
  destruct (decide (j = 0)) as [->|]; [constructor|].
  apply desc_child; [lia|]. apply IH. apply parentpos_lt. lia.
Qed.

(** The children of [pos] are [2 * pos + 1] and the position after. *)
Lemma parent_children j pos :
  0 < j → Nat.div2 (j - 1) = pos → j = 2 * pos + 1 ∨ j = 2 * pos + 1 + 1.
Proof.
  intros Hj <-. rewrite div2_parent.
  pose proof (Nat.div_mod_eq (j - 1) 2).
  pose proof (Nat.mod_upper_bound (j - 1) 2). lia.
Qed.

Section heapq_order.
Context {A : Type} `{!Inhabited A} (lt : A → A → bool).
Implicit Types (h : list A) (x : A).

(** The order [heapq] is used with: [<] is asymmetric, and "not smaller" is
    transitive. *)
Hypothesis lt_asym : ∀ x y, lt x y = true → lt y x = false.
Hypothesis le_trans : ∀ x y z, lt y x = false → lt z y = false → lt z x = false.

Lemma lt_irrefl x : lt x x = false.
Proof. destruct (lt x x) eqn:H; [by apply lt_asym in H as H'; congruence|done]. Qed.

Lemma lt_le_trans x y z : lt x y = true → lt z y = false → lt z x = false.
Proof. intros Hxy Hyz. apply lt_asym in Hxy. by eapply le_trans. Qed.

(** In heap order the first element is a smallest one. *)
Lemma heap_root_min h j :
  heap_ordered lt h → j < length h → lt (h !!! j) (h !!! 0) = false.
Proof.
  intros Hh. induction j as [j IH] using lt_wf_ind. intros Hj.
  destruct (decide (j = 0)) as [->|Hj0]; [apply lt_irrefl|].
  assert (Nat.div2 (j - 1) < j) by (apply parentpos_lt; lia).
  apply (le_trans _ (h !!! Nat.div2 (j - 1))); [apply IH; lia|].
  apply Hh; lia.
Qed.

Lemma hole_inv_insert h s pos y :
  hole_inv lt h s pos → hole_inv lt (<[pos := y]> h) s pos.
Proof.
  intros [Ha Hc]. split.
  - intros j Hj ????. rewrite length_insert in Hj.
    rewrite !list_lookup_total_insert_ne by done. by apply Ha.
  - intros j Hj H0 Hp Hs. rewrite length_insert in Hj.
    pose proof (parentpos_lt j H0).
    assert (Nat.div2 (pos - 1) < pos) by (apply parentpos_lt; lia).
    rewrite !list_lookup_total_insert_ne by lia. by apply Hc.
Qed.

(** Heap order from [s + 1] on is heap order from [s] on with a hole at
    [s]. *)
Lemma heap_from_hole h s : heap_from lt h (S s) → hole_inv lt h s s.
Proof.
  intros Hh. split.
  - intros j ?????. apply Hh; lia.
  - intros; lia.
Qed.

(** Filling the hole with an element that fits gives the heap order. *)
Lemma hole_fill h s pos x :
  pos < length h → hole_inv lt h s pos → fits lt h pos x →
  pos = s ∨ (s < pos ∧ lt x (h !!! Nat.div2 (pos - 1)) = false) →
  heap_from lt (<[pos := x]> h) s.
Proof.
  intros Hpos [Ha Hc] Hb Hexit j Hj H0 Hs. rewrite length_insert in Hj.
  pose proof (parentpos_lt j H0) as Hpj.
  destruct (decide (j = pos)) as [->|Hjp].
  - rewrite list_lookup_total_insert_eq by done.
    rewrite list_lookup_total_insert_ne by lia.
    destruct Hexit as [->|[_ ?]]; [lia|done].
  - rewrite (list_lookup_total_insert_ne _ _ j) by done.
    destruct (decide (Nat.div2 (j - 1) = pos)) as [Hp|Hp].
    + rewrite Hp, list_lookup_total_insert_eq by done. by apply Hb.
    + rewrite list_lookup_total_insert_ne by done. by apply Ha.
Qed.

(** One iteration of [_siftdown]: the parent moves into the hole. *)
Lemma hole_up h s pos x :
  pos < length h → s < pos → desc s pos →
  hole_inv lt h s pos → fits lt h pos x →
  lt x (h !!! Nat.div2 (pos - 1)) = true →
  let h' := <[pos := h !!! Nat.div2 (pos - 1)]> h in
  hole_inv lt h' s (Nat.div2 (pos - 1)) ∧ fits lt h' (Nat.div2 (pos - 1)) x.
Proof.
  intros Hpos Hs Hdesc [Ha Hc] Hb Hlt. cbn zeta.
  assert (Nat.div2 (pos - 1) < pos) as Hpp by (apply parentpos_lt; lia).
  pose proof (desc_le _ _ (desc_parent _ _ Hdesc Hs)) as Hsp.
  set (pp := Nat.div2 (pos - 1)) in *.
  split; [split|].
  - intros j Hj H0 Hsj Hjp Hpj. rewrite length_insert in Hj.
    pose proof (parentpos_lt j H0).
    destruct (decide (j = pos)) as [->|Hne]; [done|].
    rewrite (list_lookup_total_insert_ne _ _ j) by done.
    destruct (decide (Nat.div2 (j - 1) = pos)) as [Hp|Hp].
    + rewrite Hp, list_lookup_total_insert_eq by done. by apply Hc.
    + rewrite list_lookup_total_insert_ne by done. by apply Ha.
  - intros j Hj H0 Hpj Hs'. rewrite length_insert in Hj.
    assert (Nat.div2 (pp - 1) < pp) by (apply parentpos_lt; lia).
    assert (s ≤ Nat.div2 (pp - 1)).
    { apply desc_le, desc_parent; [by apply desc_parent|done]. }
    rewrite (list_lookup_total_insert_ne _ _ (Nat.div2 (pp - 1))) by lia.
    assert (lt (h !!! pp) (h !!! Nat.div2 (pp - 1)) = false) as Hpp'.
    { apply Ha; lia. }
    destruct (decide (j = pos)) as [->|Hne].
    + by rewrite list_lookup_total_insert_eq by done.
    + rewrite list_lookup_total_insert_ne by done.
      apply (le_trans _ (h !!! pp)); [done|].
      rewrite <-Hpj. apply Ha; lia.
  - intros j Hj H0 Hpj. rewrite length_insert in Hj.
    destruct (decide (j = pos)) as [->|Hne].
    + rewrite list_lookup_total_insert_eq by done. by apply lt_asym.
    + rewrite list_lookup_total_insert_ne by done.
      apply (lt_le_trans _ (h !!! pp)); [done|]. rewrite <-Hpj. apply Ha; lia.
Qed.

Lemma siftdown_loop_heap fuel h s pos x :
  pos ≤ fuel → pos < length h → desc s pos →
  hole_inv lt h s pos → fits lt h pos x →
  heap_from lt (heapq.siftdown_loop lt fuel h s pos x) s.
Proof.
  revert h pos; induction fuel as [|fuel IH]; intros h pos Hf Hpos Hdesc Hh Hb.
  { cbn. apply hole_fill; [done..|]. left. apply desc_le in Hdesc. lia. }
  cbn. case_bool_decide as Hs.
  - destruct (lt x _) eqn:Hlt.
    + destruct (hole_up h s pos x) as [Hh' Hb']; [done..|].
      assert (Nat.div2 (pos - 1) < pos) by (apply parentpos_lt; lia).
      apply IH; [lia|rewrite length_insert; lia|by apply desc_parent|done..].
    + apply hole_fill; auto.
  - apply hole_fill; [done..|]. left. apply desc_le in Hdesc. lia.
Qed.
(** The loop of [_siftup] moves the hole down to a leaf. *)
Lemma siftup_loop_hole fuel h s pos childpos :
  length h - childpos ≤ fuel → childpos = 2 * pos + 1 → pos < length h →
  desc s pos → hole_inv lt h s pos →
  let r := heapq.siftup_loop lt fuel h (length h) pos childpos in
  length r.1 = length h ∧ r.2 < length h ∧ length h ≤ 2 * r.2 + 1
  ∧ desc s r.2 ∧ hole_inv lt r.1 s r.2.
Proof.
  revert h pos childpos; induction fuel as [|fuel IH];
    intros h pos childpos Hf Hc Hpos Hdesc Hh; cbn.
  { split_and!; try done. lia. }
  case_bool_decide as Hlt; [|cbn; split_and!; try done; lia].
  set (c := if _ && _ then _ else _).
  assert ((c = childpos ∧ (childpos + 1 < length h →
             lt (h !!! childpos) (h !!! (childpos + 1)) = true))
          ∨ (c = childpos + 1 ∧ childpos + 1 < length h
             ∧ lt (h !!! childpos) (h !!! (childpos + 1)) = false)) as Hc'.
  { unfold c. case_bool_decide as Hr; cbn; [|left; split; [done|lia]].
    destruct (lt (h !!! childpos) _); cbn; auto. }
  clearbody c.
  assert (childpos ≤ c < length h) as Hcc by (destruct Hc' as [[-> _]|(-> & ? & _)]; lia).
  assert (Nat.div2 (c - 1) = pos) as Hpc by (destruct Hc' as [[-> _]|(-> & ? & _)]; lia).
  assert (desc s c) as Hdc.
  { destruct Hc' as [[-> _]|(-> & _)]; subst childpos;
      [by apply desc_left|by apply desc_right]. }
  pose proof (desc_le _ _ Hdesc) as Hsp.
  destruct (IH (<[pos := h !!! c]> h) c (2 * c + 1)) as (Hl & Hp & Hleaf & Hd & Hh');
    rewrite ?length_insert; try done; try lia.
  { destruct Hh as [Ha Hcond]. split.
    - intros j Hj H0 Hsj Hjc Hpj. rewrite length_insert in Hj.
      assert (Nat.div2 (j - 1) < j) by (apply parentpos_lt; lia).
      destruct (decide (j = pos)) as [->|Hjp].
      + rewrite list_lookup_total_insert_eq by done.
        rewrite list_lookup_total_insert_ne by lia.
        apply Hcond; lia.
      + rewrite (list_lookup_total_insert_ne _ _ j) by done.
        destruct (decide (Nat.div2 (j - 1) = pos)) as [Hp|Hp].
        * rewrite Hp, list_lookup_total_insert_eq by done.
          destruct (parent_children j pos H0 Hp) as [Hj'|Hj'];
            destruct Hc' as [[Hc1 Hc2]|(Hc1 & Hc2 & Hc3)]; subst childpos.
          -- congruence.
          -- by rewrite Hc1, Hj'.
          -- rewrite Hc1, Hj'. apply lt_asym, Hc2. lia.
          -- congruence.
        * rewrite list_lookup_total_insert_ne by done. by apply Ha.
    - intros j Hj H0 Hpj Hsc. rewrite length_insert in Hj.
      rewrite Hpc, list_lookup_total_insert_eq by done.
      rewrite list_lookup_total_insert_ne by lia.
      rewrite <-Hpj. apply Ha; lia. }
  rewrite length_insert in Hl, Hp, Hleaf, Hd, Hh'. done.
Qed.

(** [_siftup] at [pos] extends the heap order from [pos + 1] on to [pos]. *)
Lemma siftup_heap h pos :
  pos < length h → heap_from lt h (S pos) →
  heap_from lt (heapq._siftup lt h pos) pos.
Proof.
  intros Hpos Hh. unfold heapq._siftup.
  pose proof (siftup_loop_hole (length h) h pos pos (2 * pos + 1)) as Hs.
  destruct (heapq.siftup_loop _ _ _ _ _ _) as [h' p']; cbn in Hs.
  destruct Hs as (Hl & Hp & Hleaf & Hd & Hh');
    [lia|done|done|constructor|by apply heap_from_hole|].
  unfold heapq._siftdown.
  rewrite list_lookup_total_insert_eq by lia.
  apply siftdown_loop_heap; [done|by rewrite length_insert; lia|done| |].
  - by apply hole_inv_insert.
  - intros j Hj H0 Hpj. rewrite length_insert in Hj.
    destruct (parent_children j p' H0 Hpj); lia.
Qed.

Lemma heappush_heap h x :
  heap_ordered lt h → heap_ordered lt (heapq.heappush lt h x).
Proof.
  intros Hh. unfold heapq.heappush, heapq._siftdown.
  rewrite length_app. cbn. replace (length h + 1 - 1) with (length h) by lia.
  apply siftdown_loop_heap;
    [done|rewrite length_app; cbn; lia|apply desc_0| |].
  - split.
    + intros j Hj H0 _ Hjp Hpj. rewrite length_app in Hj. cbn in Hj.
      assert (Nat.div2 (j - 1) < j) by (apply parentpos_lt; lia).
      rewrite !lookup_total_app_l by lia. apply Hh; lia.
    + intros j Hj H0 Hpj _. rewrite length_app in Hj. cbn in Hj.
      destruct (parent_children j _ H0 Hpj); lia.
  - intros j Hj H0 Hpj. rewrite length_app in Hj. cbn in Hj.
    destruct (parent_children j _ H0 Hpj); lia.
Qed.

(** [heappop] on a list in heap order returns a smallest element and
    leaves the list in heap order. *)
Lemma heappop_heap h x h' :
  heap_ordered lt h → heapq.heappop lt h = Ok (x, h') →
  heap_ordered lt h' ∧ ∀ y, y ∈ h → lt y x = false.
Proof.
  intros Hh Hpop. split.
  - unfold heapq.heappop in Hpop.
    destruct (last h) as [lastelt|] eqn:Hlast; [|done].
    apply last_Some in Hlast as [l' ->]. rewrite removelast_last in Hpop.
    destruct l' as [|y l']; simplify_eq/=.
    { intros j Hj. cbn in Hj. lia. }
    apply siftup_heap; [cbn; lia|].
    intros j Hj H0 Hpj. cbn in Hj.
    assert (Nat.div2 (j - 1) < j) by (apply parentpos_lt; lia).
    destruct j as [|j]; [lia|].
    destruct (Nat.div2 (S j - 1)) as [|k] eqn:Hk; [lia|].
    assert (∀ i, i < length l' →
              (x :: l' ++ [lastelt]) !!! S i = l' !!! i) as Hcons.
    { intros i Hi. by apply (lookup_total_app_l l'). }
    specialize (Hh (S j)). rewrite Hk, !Hcons in Hh by lia.
    apply Hh; cbn; rewrite ?length_app; cbn; lia.
  - apply heappop_Ok in Hpop as [H0 _]. intros y Hy.
    apply list_elem_of_lookup_total in Hy as (j & Hj & <-).
    apply list_lookup_alt in H0 as [_ <-]. by apply heap_root_min.
Qed.

Lemma foldl_siftup_heap h k :
  k ≤ length h → heap_from lt h k →
  heap_ordered lt (foldl (heapq._siftup lt) h (rev (seq 0 k))).
Proof.
  revert h; induction k as [|k IH]; intros h Hk Hh; [done|].
  rewrite seq_S, rev_app_distr. cbn.
  apply IH; [rewrite siftup_length; lia|]. apply siftup_heap; [lia|done].
Qed.

(** [heapify] puts any list in heap order. *)
Lemma heapify_heap h : heap_ordered lt (heapq.heapify lt h).
Proof.
  pose proof (Nat.Div0.div_le_upper_bound (length h) 2 (length h)).
  pose proof (Nat.div_mod_eq (length h) 2).
  apply foldl_siftup_heap; [lia|].
  intros j Hj Hj0 Hpj. destruct (parent_children j _ Hj0 eq_refl); lia.
Qed.
End heapq_order.

(** ** [heapq] on two lists related element by element *)

Section heapq_rel.
Context {A B : Type} `{!Inhabited A, !Inhabited B}.
Context (ltA : A → A → bool) (ltB : B → B → bool) (R : A → B → Prop).

(** Related elements compare the same way. *)
Hypothesis lt_rel :
  ∀ x1 x2 y1 y2, R x1 x2 → R y1 y2 → ltA x1 y1 = ltB x2 y2.

Lemma Forall2_lookup_total (h1 : list A) (h2 : list B) i :
  Forall2 R h1 h2 → i < length h1 → R (h1 !!! i) (h2 !!! i).
Proof.
  intros Hh Hi. eapply Forall2_lookup_lr; [done|..];
    apply list_lookup_lookup_total_lt; [done|].
  by rewrite <-(Forall2_length _ _ _ Hh).
Qed.

Lemma siftdown_loop_rel fuel (h1 : list A) (h2 : list B) startpos pos x1 x2 :
  Forall2 R h1 h2 → R x1 x2 → pos < length h1 →
  Forall2 R (heapq.siftdown_loop ltA fuel h1 startpos pos x1)
    (heapq.siftdown_loop ltB fuel h2 startpos pos x2).
Proof.
  revert h1 h2 pos; induction fuel as [|fuel IH]; intros h1 h2 pos Hh Hx Hpos;
    cbn; [by apply Forall2_insert|].
  case_bool_decide; [|by apply Forall2_insert].
  assert (Nat.div2 (pos - 1) < pos) by (apply parentpos_lt; lia).
  assert (R (h1 !!! Nat.div2 (pos - 1)) (h2 !!! Nat.div2 (pos - 1))) as Hp.
  { apply Forall2_lookup_total; [done|lia]. }
  rewrite (lt_rel _ _ _ _ Hx Hp). destruct (ltB x2 _); [|by apply Forall2_insert].
  apply IH; [by apply Forall2_insert|done|rewrite length_insert; lia].
Qed.

Lemma siftdown_rel (h1 : list A) (h2 : list B) startpos pos :
  Forall2 R h1 h2 → pos < length h1 →
  Forall2 R (heapq._siftdown ltA h1 startpos pos)
    (heapq._siftdown ltB h2 startpos pos).
Proof.
  intros Hh Hpos. apply siftdown_loop_rel; [done| |done].
  by apply Forall2_lookup_total.
Qed.

Lemma siftup_loop_rel fuel (h1 : list A) (h2 : list B) endpos pos childpos :
  Forall2 R h1 h2 → endpos ≤ length h1 →
  Forall2 R (heapq.siftup_loop ltA fuel h1 endpos pos childpos).1
    (heapq.siftup_loop ltB fuel h2 endpos pos childpos).1
  ∧ (heapq.siftup_loop ltA fuel h1 endpos pos childpos).2
    = (heapq.siftup_loop ltB fuel h2 endpos pos childpos).2.
Proof.
  revert h1 h2 pos childpos; induction fuel as [|fuel IH];
    intros h1 h2 pos childpos Hh Hend; cbn; [done|].
  case_bool_decide as Hc; [|done].
  assert ((if bool_decide (childpos + 1 < endpos)
              && negb (ltA (h1 !!! childpos) (h1 !!! (childpos + 1)))
           then childpos + 1 else childpos)
          = (if bool_decide (childpos + 1 < endpos)
                && negb (ltB (h2 !!! childpos) (h2 !!! (childpos + 1)))
             then childpos + 1 else childpos)) as Hsame.
  { case_bool_decide as Hr; [|done]. cbn.
    by rewrite (lt_rel _ (h2 !!! childpos) _ (h2 !!! (childpos + 1)))
      by (apply Forall2_lookup_total; [done|lia]). }
  rewrite <-Hsame. set (c := if _ && _ then _ else _).
  assert (c < endpos) by (unfold c; case_match; [case_bool_decide|]; cbn in *; lia).
  apply IH; [|by rewrite length_insert].
  apply Forall2_insert; [done|]. apply Forall2_lookup_total; [done|lia].
Qed.

Lemma siftup_rel (h1 : list A) (h2 : list B) pos :
  Forall2 R h1 h2 → pos < length h1 →
  Forall2 R (heapq._siftup ltA h1 pos) (heapq._siftup ltB h2 pos).
Proof.
  intros Hh Hpos. unfold heapq._siftup.
  rewrite <-(Forall2_length _ _ _ Hh).
  pose proof (siftup_loop_rel (length h1) h1 h2 (length h1) pos (2 * pos + 1)
                Hh (le_n _)) as [Hr Hp].
  pose proof (siftup_loop_spec ltA (length h1) h1 (length h1) pos (2 * pos + 1))
    as Hs.
  destruct (heapq.siftup_loop ltA _ _ _ _ _) as [h1' p1].
  destruct (heapq.siftup_loop ltB _ _ _ _ _) as [h2' p2].
  cbn in Hr, Hp, Hs. subst p2. destruct Hs as (Hl & Hp1 & _); [lia..|].
  apply siftdown_rel; [|rewrite length_insert; lia].
  apply Forall2_insert; [done|]. by apply Forall2_lookup_total.
Qed.

Lemma heappush_rel (h1 : list A) (h2 : list B) x1 x2 :
  Forall2 R h1 h2 → R x1 x2 →
  Forall2 R (heapq.heappush ltA h1 x1) (heapq.heappush ltB h2 x2).
Proof.
  intros Hh Hx. unfold heapq.heappush.
  rewrite !length_app, <-(Forall2_length _ _ _ Hh). cbn.
  apply siftdown_rel; [|rewrite length_app; cbn; lia].
  apply Forall2_app; [done|]. by apply Forall2_cons.
Qed.

(** [heappop] on related lists: both raise, or both return, related
    elements and related lists. *)
Lemma heappop_rel (h1 : list A) (h2 : list B) :
  Forall2 R h1 h2 →
  match heapq.heappop ltA h1, heapq.heappop ltB h2 with
  | Ok (x1, h1'), Ok (x2, h2') => R x1 x2 ∧ Forall2 R h1' h2'
  | Raise e1, Raise e2 => e1 = e2
  | _, _ => False
  end.
Proof.
  intros Hh. unfold heapq.heappop.
  destruct (last h1) as [x1|] eqn:Hlast1.
  - apply last_Some in Hlast1 as [l1 ->].
    apply Forall2_app_inv_l in Hh as (l2 & k2 & Hl & Hx & ->).
    apply Forall2_cons_inv_l in Hx as (x2 & k2' & Hx & ->%Forall2_nil_inv_l & ->).
    rewrite last_snoc, !removelast_last.
    destruct Hl as [|y1 y2 l1 l2 Hy Hl]; [done|]. split; [done|].
    apply siftup_rel; [|cbn; lia]. by apply Forall2_cons.
  - apply last_None in Hlast1 as ->. by apply Forall2_nil_inv_l in Hh as ->.
Qed.

Lemma foldl_siftup_rel (h1 : list A) (h2 : list B) (idx : list nat) :
  Forall2 R h1 h2 → Forall (λ i, i < length h1) idx →
  Forall2 R (foldl (heapq._siftup ltA) h1 idx) (foldl (heapq._siftup ltB) h2 idx).
Proof.
  revert h1 h2; induction idx as [|i idx IH]; intros h1 h2 Hh Hidx; cbn; [done|].
  apply Forall_cons in Hidx as [Hi Hidx].
  apply IH; [by apply siftup_rel|]. by rewrite siftup_length.
Qed.

Lemma heapify_rel (h1 : list A) (h2 : list B) :
  Forall2 R h1 h2 → Forall2 R (heapq.heapify ltA h1) (heapq.heapify ltB h2).
Proof.
  intros Hh. unfold heapq.heapify. rewrite <-(Forall2_length _ _ _ Hh).
  apply foldl_siftup_rel; [done|]. apply Forall_forall. intros i Hi.
  apply list_elem_of_In, in_rev, in_seq in Hi. lia.
Qed.
End heapq_rel.

(** ** The loop of [build_tree] *)

Lemma loop_body_inr s s' :
  loop_body s = inr s' →
  ∃ L cl R cr q1 q2,
    heapq.heappop (entry_lt (heap s)) (queue s) = Ok ((L, cl), q1)
    ∧ heapq.heappop (entry_lt (heap s)) q1 = Ok ((R, cr), q2)
    ∧ s' = LoopState
             (heapq.heappush (entry_lt (combine (heap s) L R).2) q2
                (length (heap s), counter s))
             (S (counter s)) (combine (heap s) L R).2.
Proof.
  unfold loop_body.
  destruct (heapq.heappop _ (queue s)) as [[[L cl] q1]|e] eqn:H1; [|done].
  destruct (heapq.heappop _ q1) as [[[R cr] q2]|e] eqn:H2; [|by destruct e].
  intros [= <-]. by eexists L, cl, R, cr, q1, q2.
Qed.

Lemma loop_body_inl s o :
  loop_body s = inl o →
  (queue s = [] ∧ o = Raises IndexError (heap s))
  ∨ (∃ a c, queue s = [(a, c)] ∧ o = Returns a (heap s)).
Proof.
  unfold loop_body.
  destruct (heapq.heappop _ (queue s)) as [[[L cl] q1]|e] eqn:H1.
  - destruct (heapq.heappop _ q1) as [[[R cr] q2]|e] eqn:H2; [done|].
    apply heappop_Raise in H2 as [-> ->]. intros [= <-]. right.
    apply heappop_Ok in H1 as [_ H1]. exists L, cl.
    by apply Permutation_singleton_l in H1.
  - apply heappop_Raise in H1 as [-> ->]. intros [= <-]. by left.
Qed.

(** An iteration that goes on takes two entries off the queue and puts one
    in, with the count of the counter, which it increments. *)
Lemma loop_body_perm s s' :
  loop_body s = inr s' →
  ∃ L cl R cr q2,
    queue s ≡ₚ (L, cl) :: (R, cr) :: q2
    ∧ queue s' ≡ₚ (length (heap s), counter s) :: q2
    ∧ heap s' = (combine (heap s) L R).2
    ∧ counter s' = S (counter s).
Proof.
  intros (L & cl & R & cr & q1 & q2 & H1 & H2 & ->)%loop_body_inr.
  apply heappop_Ok in H1 as [_ H1]. apply heappop_Ok in H2 as [_ H2].
  exists L, cl, R, cr, q2. simpl. split_and!; [|apply heappush_perm|done..].
  by rewrite <-H1, <-H2.
Qed.

Lemma loop_total fuel s :
  length (queue s) < fuel → ∃ o, loop fuel s = Some o.
Proof.
  revert s; induction fuel as [|fuel IH]; intros s Hlen; [lia|]. simpl.
  destruct (loop_body s) as [o|s'] eqn:Hs; [by eexists|].
  apply IH. apply loop_body_perm in Hs as (L & cl & R & cr & q2 & H1 & H2 & _).
  apply Permutation_length in H1, H2. simpl in *. lia.
Qed.

Lemma number_length k nodes : length (number k nodes) = length nodes.
Proof. revert k; induction nodes; intros k; simpl; auto. Qed.

Lemma number_fst k nodes : (number k nodes).*1 = nodes.
Proof. revert k; induction nodes; intros k; simpl; f_equal; auto. Qed.

Lemma number_snd k nodes : (number k nodes).*2 = seq k (length nodes).
Proof. revert k; induction nodes; intros k; simpl; f_equal; auto. Qed.

Lemma init_queue st nodes : queue (init st nodes) ≡ₚ number 0 nodes.
Proof. apply heapify_perm. Qed.

(** [build_tree] ends: the fuel of the model is never used up. *)
Lemma build_tree_total st nodes : ∃ o, build_tree st nodes = Some o.
Proof.
  apply loop_total.
  rewrite (Permutation_length (init_queue st nodes)), number_length. lia.
Qed.

(** The outcome of [build_tree] is that of the last iteration, in a state
    the loop reaches. *)
Lemma loop_reachable st nodes fuel s o :
  reachable st nodes s → loop fuel s = Some o →
  ∃ s', reachable st nodes s' ∧ loop_body s' = inl o.
Proof.
  revert s; induction fuel as [|fuel IH]; intros s Hs; [done|]. simpl.
  destruct (loop_body s) as [o'|s'] eqn:Hbody.
  - intros [= <-]. by exists s.
  - apply IH. by eapply reachable_step.
Qed.

Lemma build_tree_reachable st nodes o :
  build_tree st nodes = Some o →
  ∃ s, reachable st nodes s ∧ loop_body s = inl o.
Proof. apply loop_reachable. constructor. Qed.

(** ** The empty and the one-element input *)

(** C5: on the empty list [build_tree] raises the [IndexError] of the first
    [heappop]; it returns no node and the store is the one it was given. *)
Theorem build_tree_empty st : build_tree st [] = Some (Raises IndexError st).
Proof. done. Qed.

Lemma build_tree_one st a : build_tree st [a] = Some (Returns a st).
Proof. reflexivity. Qed.

(** The code of a leaf with no parent is the empty string. *)
Lemma code_parentless st a :
  is_leaf (st !!! a) = true → parent (st !!! a) = None →
  code st a = Some (Ok ""%string).
Proof.
  intros Hleaf Hparent. unfold code. rewrite Hleaf. simpl.
  rewrite Hparent. by destruct (length st).
Qed.

(** C8: on a one-element list [build_tree] returns that node and leaves the
    store as it was, so the node is as it was; if it has no parent and no
    children, its code is the empty string. *)
Theorem build_tree_single st a :
  build_tree st [a] = Some (Returns a st)
  ∧ (is_leaf (st !!! a) = true → parent (st !!! a) = None →
     code st a = Some (Ok ""%string)).
Proof. split; [apply build_tree_one|apply code_parentless]. Qed.

(** ** [code] and [direction_from_parent] *)

Lemma direction_from_parent_Some st self p :
  parent (st !!! self) = Some p →
  direction_from_parent st self
  = Ok (turn (negb (bool_decide (left (st !!! p) = Some self)))).
Proof.
  intros Hp. unfold direction_from_parent. rewrite Hp. by case_bool_decide.
Qed.

(** The loop of [code] raises nothing. *)
Lemma code_loop_no_raise fuel st turns next_node e :
  code_loop fuel st turns next_node ≠ Some (Raise e).
Proof.
  revert turns next_node; induction fuel as [|fuel IH];
    intros turns [n|]; simpl; try done.
  destruct (parent (st !!! n)) as [p|] eqn:Hp; [|apply IH].
  rewrite (direction_from_parent_Some _ _ p) by done. apply IH.
Qed.

(** C6: [code] raises if and only if the node is not a leaf, and then an
    [AttributeError]; [direction_from_parent] raises if and only if the
    node has no parent; with a parent, it is the character 0 when the left
    child of the parent is this very node and the character 1 otherwise,
    so for the right child of a tree, where a node is not both children of
    its parent. The test is on references: of two distinct children of one
    parent the left one gets 0 and the right one 1, equal weights or not. *)
Theorem code_direction_errors st self :
  (∀ e, code st self = Some (Raise e)
        ↔ is_leaf (st !!! self) = false ∧ e = AttributeError)
  ∧ (∀ e, direction_from_parent st self = Raise e
          ↔ parent (st !!! self) = None ∧ e = AttributeError)
  ∧ (∀ p, parent (st !!! self) = Some p →
       (left (st !!! p) = Some self →
        direction_from_parent st self = Ok "0"%string)
       ∧ (left (st !!! p) ≠ Some self →
          direction_from_parent st self = Ok "1"%string)
       ∧ (right (st !!! p) = Some self → left (st !!! p) ≠ Some self →
          direction_from_parent st self = Ok "1"%string))
  ∧ (∀ p other,
       parent (st !!! self) = Some p → parent (st !!! other) = Some p →
       left (st !!! p) = Some self → right (st !!! p) = Some other →
       self ≠ other →
       direction_from_parent st self = Ok "0"%string
       ∧ direction_from_parent st other = Ok "1"%string).
Proof.
  split_and!.
  - intros e. unfold code. destruct (is_leaf (st !!! self)); cbn [negb].
    + split; [|by intros [? _]]. intros H. by apply code_loop_no_raise in H.
    + split; [by intros [= <-]|by intros [_ ->]].
  - intros e. unfold direction_from_parent.
    destruct (parent (st !!! self)); [case_bool_decide|];
      (split; [by intros [= <-]|by intros [? ->]]).
  - intros p Hp. rewrite (direction_from_parent_Some _ _ p) by done.
    split_and!; intros; case_bool_decide; naive_solver.
  - intros p other Hp Hp' Hl Hr Hne.
    rewrite (direction_from_parent_Some _ _ p), (direction_from_parent_Some _ other p) by done.
    rewrite bool_decide_eq_true_2, bool_decide_eq_false_2 by congruence. done.
Qed.

(** ** Comparisons and hashing *)

(** On operands that are nodes the dynamic comparisons are the comparisons
    of the weights, the ones the queue uses. *)
Lemma dynamic_of_node self other :
  Dynamic.__lt__ self (Dynamic.of_node other) = Ok (Dynamic.Bool (__lt__ self other))
  ∧ Dynamic.__le__ self (Dynamic.of_node other) = Ok (Dynamic.Bool (__le__ self other))
  ∧ Dynamic.__gt__ self (Dynamic.of_node other) = Ok (Dynamic.Bool (__gt__ self other))
  ∧ Dynamic.__ge__ self (Dynamic.of_node other) = Ok (Dynamic.Bool (__ge__ self other))
  ∧ Dynamic.__eq__ self (Dynamic.of_node other) = Ok (Dynamic.Bool (__eq__ self other))
  ∧ Dynamic.__ne__ self (Dynamic.of_node other) = Ok (Dynamic.Bool (__ne__ self other)).
Proof. done. Qed.

(** An ordering against an object that is no [int] and whose class does
    not answer is a [TypeError]; [==] and [!=] are what the class answers,
    and [False] and [True] when it does not. *)
Lemma compare_incomparable op x v :
  Dynamic.as_int v = None →
  (∀ op', Dynamic.is_ordering op' = true → Dynamic.method v op' x = None) →
  Dynamic.compare op x v
  = match op with
    | Dynamic.OpEq =>
        default (Ok (Dynamic.Bool false)) (Dynamic.method v Dynamic.OpEq x)
    | Dynamic.OpNe =>
        default (Ok (Dynamic.Bool true)) (Dynamic.method v Dynamic.OpNe x)
    | _ => Raise TypeError
    end.
Proof.
  intros Hint Hm. unfold Dynamic.compare. rewrite Hint.
  destruct op; cbn; rewrite ?Hm by done; try done;
    by destruct (Dynamic.method v _ x).
Qed.

(** C9 as stated fails: [==] against an operand with no [weight] is
    [False], not an error. *)
Lemma eq_without_weight_is_no_error :
  ¬ (∀ self other, incomparable self other →
       ∃ e, Dynamic.__eq__ self other = Raise e).
Proof.
  intros H.
  destruct (H (__init__ 1 PyNone None None None) (Dynamic.Operand None) I)
    as [e He].
  discriminate He.
Qed.

(** C9, amended: against an operand on which [weight] is absent or not
    comparable, the four ordering comparisons raise ([AttributeError] when
    absent, [TypeError] when not comparable). [==] and [!=] report no such
    error: with [weight] absent they return [False] and [True]; with a
    [weight] they return what [==] and [!=] of the two weights give, the
    answer of the class of that weight, and [False] and [True] when it has
    none. So against a weight that is [None], a [str] or a [dict] they are
    [False] and [True], and against the weight [1+0j], which no [int] can
    be ordered against either, [==] is [True] for a node of weight 1. *)
Theorem comparison_errors self other :
  incomparable self other →
  let e := match Dynamic.attr_weight other with
           | Some _ => TypeError
           | None => AttributeError
           end in
  Dynamic.__lt__ self other = Raise e ∧ Dynamic.__le__ self other = Raise e
  ∧ Dynamic.__gt__ self other = Raise e ∧ Dynamic.__ge__ self other = Raise e
  ∧ (Dynamic.attr_weight other = None →
     Dynamic.__eq__ self other = Ok (Dynamic.Bool false)
     ∧ Dynamic.__ne__ self other = Ok (Dynamic.Bool true))
  ∧ (∀ v, Dynamic.attr_weight other = Some v →
       Dynamic.__eq__ self other
       = default (Ok (Dynamic.Bool false))
           (Dynamic.method v Dynamic.OpEq (weight self))
       ∧ Dynamic.__ne__ self other
         = default (Ok (Dynamic.Bool true))
             (Dynamic.method v Dynamic.OpNe (weight self)))
  ∧ (∀ v, (∀ z, v ≠ PyInt z) →
       let o := Dynamic.Operand (Some (Dynamic.of_pyval v)) in
       incomparable self o
       ∧ Dynamic.__eq__ self o = Ok (Dynamic.Bool false)
       ∧ Dynamic.__ne__ self o = Ok (Dynamic.Bool true))
  ∧ (let o := Dynamic.Operand (Some Dynamic.complex_one) in
     incomparable self o
     ∧ Dynamic.__lt__ self o = Raise TypeError
     ∧ Dynamic.__eq__ self o = Ok (Dynamic.Bool (weight self =? 1)%Z)
     ∧ Dynamic.__ne__ self o = Ok (Dynamic.Bool (negb (weight self =? 1)%Z))).
Proof.
  intros Hinc e.
  assert (∀ v, (∀ z, v ≠ PyInt z) →
            let o := Dynamic.Operand (Some (Dynamic.of_pyval v)) in
            incomparable self o
            ∧ Dynamic.__eq__ self o = Ok (Dynamic.Bool false)
            ∧ Dynamic.__ne__ self o = Ok (Dynamic.Bool true)) as Hpy.
  { intros v Hv. destruct v; try done. by destruct (Hv z). }
  assert (let o := Dynamic.Operand (Some Dynamic.complex_one) in
          incomparable self o
          ∧ Dynamic.__lt__ self o = Raise TypeError
          ∧ Dynamic.__eq__ self o = Ok (Dynamic.Bool (weight self =? 1)%Z)
          ∧ Dynamic.__ne__ self o
            = Ok (Dynamic.Bool (negb (weight self =? 1)%Z))) as Hcx.
  { split; [|done]. split; [done|]. by intros []. }
  unfold incomparable in Hinc.
  unfold Dynamic.__lt__, Dynamic.__le__, Dynamic.__gt__, Dynamic.__ge__,
    Dynamic.__eq__, Dynamic.__ne__, Dynamic.order.
  destruct (Dynamic.attr_weight other) as [v|]; subst e.
  - destruct Hinc as [Hint Hm]. rewrite !compare_incomparable by done.
    do 4 (split; [done|]). split; [done|].
    split; [by intros ? [= <-]|]. split; [exact Hpy|exact Hcx].
  - do 4 (split; [done|]). split; [done|].
    split; [done|]. split; [exact Hpy|exact Hcx].
Qed.

Lemma comparison_errors_witness :
  Dynamic.__lt__ (__init__ 1 PyNone None None None)
    (Dynamic.Operand (Some Dynamic.complex_one)) = Raise TypeError
  ∧ Dynamic.__eq__ (__init__ 1 PyNone None None None)
      (Dynamic.Operand (Some Dynamic.complex_one)) = Ok (Dynamic.Bool true).
Proof.
  assert (H : incomparable (__init__ 1 PyNone None None None)
                (Dynamic.Operand (Some Dynamic.complex_one))).
  { split; [reflexivity|]. intros op Hop. destruct op; try reflexivity.
    - discriminate Hop.
    - discriminate Hop. }
  destruct (comparison_errors (__init__ 1 PyNone None None None)
              (Dynamic.Operand (Some Dynamic.complex_one)) H)
    as (Hlt & _ & _ & _ & _ & Heq & _).
  split; [exact Hlt|]. destruct (Heq _ eq_refl) as [Heq' _]. exact Heq'.
Defined.

(** C10: [__hash__] returns the value attribute as it is: the hash depends
    on neither the weight nor the links; the node that [combine] allocates
    carries [None], and [hash] of a node whose value is not an [int], that
    node included, is a [TypeError]. *)
Theorem hash_is_value :
  (∀ self, __hash__ self = value self)
  ∧ (∀ w w' v l l' r r' p p',
       __hash__ (__init__ w v l r p) = __hash__ (__init__ w' v l' r' p'))
  ∧ (∀ st L R, valid st L → valid st R →
       __hash__ ((combine st L R).2 !!! (combine st L R).1) = PyNone
       ∧ Dynamic.hash ((combine st L R).2 !!! (combine st L R).1)
         = Raise TypeError)
  ∧ (∀ self, (∀ z, value self ≠ PyInt z) ↔ Dynamic.hash self = Raise TypeError).
Proof.
  split_and!; try done.
  - intros st L R HL HR. rewrite combine_ref, combine_new by done. done.
  - intros self. unfold Dynamic.hash, __hash__.
    destruct (value self); simpl; naive_solver.
Qed.

(** ** Trees in the store *)

Lemma shape_root_valid st u : shape st u → valid st (root u).
Proof. destruct u; simpl; [by intros [? _]|by intros [? _]]. Qed.

Lemma shape_combine st L R u : shape st u → shape (combine st L R).2 u.
Proof.
  induction u as [a|a l IHl r IHr]; cbn.
  - intros [Ha Hleaf]. pose proof (combine_frame st L R a Ha) as Hf.
    cbv zeta in Hf. destruct Hf as (_ & _ & _ & _ & ->).
    split; [|done]. unfold valid in *. rewrite combine_length. lia.
  - intros (Ha & Hl & Hr & Hsl & Hsr).
    pose proof (combine_frame st L R a Ha) as Hf.
    cbv zeta in Hf. destruct Hf as (_ & _ & -> & -> & _).
    split_and!; auto. unfold valid in *. rewrite combine_length. lia.
Qed.

Lemma shape_leaves st u a : shape st u → a ∈ leaves u →
  valid st a ∧ is_leaf (st !!! a) = true.
Proof.
  induction u as [b|b l IHl r IHr]; simpl.
  - by intros ? ->%list_elem_of_singleton.
  - intros (_ & _ & _ & Hsl & Hsr) [?|?]%elem_of_app; auto.
Qed.

Lemma shape_internals st u a : shape st u → a ∈ internals u →
  valid st a ∧ is_leaf (st !!! a) = false.
Proof.
  induction u as [b|b l IHl r IHr]; simpl.
  - by intros _ ?%elem_of_nil.
  - intros (Hb & Hl & _ & Hsl & Hsr) [->|[?|?]%elem_of_app]%elem_of_cons; auto.
    split; [done|]. unfold is_leaf. rewrite Hl.
    by rewrite andb_false_r.
Qed.

(** The tree below a node is determined by the store. *)
Lemma shape_unique st u1 u2 :
  shape st u1 → shape st u2 → root u1 = root u2 → u1 = u2.
Proof.
  revert u2; induction u1 as [a|a l IHl r IHr]; intros [b|b l' r']; simpl.
  - by intros _ _ ->.
  - intros [_ Hleaf] (_ & Hl & _) ->. unfold is_leaf in Hleaf.
    rewrite Hl, andb_false_r in Hleaf. done.
  - intros (_ & Hl & _) [_ Hleaf] ->. unfold is_leaf in Hleaf.
    rewrite Hl, andb_false_r in Hleaf. done.
  - intros (_ & Hl & Hr & Hsl & Hsr) (_ & Hl' & Hr' & Hsl' & Hsr') ->.
    f_equal; [apply IHl|apply IHr]; auto; congruence.
Qed.

(** A tree has one leaf more than it has internal nodes. *)
Lemma leaves_internals_length u : length (leaves u) = S (length (internals u)).
Proof.
  induction u as [a|a l IHl r IHr]; simpl; [done|].
  rewrite !length_app, IHl, IHr. lia.
Qed.

(** Every leaf of the tree is reached from the root along [left] and
    [right]. *)
Lemma shape_follow st u a :
  shape st u → a ∈ leaves u → ∃ path, follow st (root u) path = Some a.
Proof.
  induction u as [b|b l IHl r IHr]; simpl.
  - intros _ ->%list_elem_of_singleton. by exists [].
  - intros (_ & Hl & Hr & Hsl & Hsr) [Ha|Ha]%elem_of_app.
    + destruct (IHl Hsl Ha) as [path Hp]. exists (false :: path).
      simpl. by rewrite Hl.
    + destruct (IHr Hsr Ha) as [path Hp]. exists (true :: path).
      simpl. by rewrite Hr.
Qed.

Lemma total_weight_app st l1 l2 :
  total_weight st (l1 ++ l2) = (total_weight st l1 + total_weight st l2)%Z.
Proof. induction l1 as [|a l1 IH]; simpl; [done|]. rewrite IH. lia. Qed.

Lemma total_weight_perm st l1 l2 :
  l1 ≡ₚ l2 → total_weight st l1 = total_weight st l2.
Proof. induction 1; simpl; lia. Qed.

(** ** The invariant of the loop *)

Lemma tree_inv_perm st0 nodes T q k s :
  q ≡ₚ queue s → tree_inv st0 nodes T s →
  tree_inv st0 nodes T (LoopState q k (heap s)).
Proof.
  intros Hq [H1 H2 H3 H4 H5]. split; simpl; by rewrite ?Hq.
Qed.

Lemma tree_inv_init st nodes :
  Forall (λ a, valid st a ∧ is_leaf (st !!! a) = true) nodes →
  tree_inv st nodes Leaf (init st nodes).
Proof.
  intros Hnodes.
  apply (tree_inv_perm _ _ _ _ _ (LoopState (number 0 nodes) 0 st));
    [apply heapify_perm|].
  split; simpl.
  - done.
  - apply Forall_forall. intros [a c] Ha. split; [done|]. simpl.
    rewrite Forall_forall in Hnodes. apply Hnodes.
    rewrite <-(number_fst 0 nodes). by apply (list_elem_of_fmap_2 fst) in Ha.
  - generalize 0. induction nodes as [|a nodes IH]; intros k; simpl; [done|].
    apply Forall_cons in Hnodes as [_ Hnodes]. by rewrite IH.
  - rewrite Nat.sub_diag. simpl. generalize 0.
    induction nodes as [|a nodes IH]; intros k; simpl; [done|].
    apply Forall_cons in Hnodes as [_ Hnodes]. by apply IH.
  - apply Forall_forall. intros [a c] _. simpl. lia.
Qed.

Lemma tree_inv_step st0 nodes T s L cl q1 R cr q2 :
  tree_inv st0 nodes T s →
  heapq.heappop (entry_lt (heap s)) (queue s) = Ok ((L, cl), q1) →
  heapq.heappop (entry_lt (heap s)) q1 = Ok ((R, cr), q2) →
  tree_inv st0 nodes
    (graft T (length (heap s)) (Internal (length (heap s)) (T L) (T R)))
    (LoopState
       (heapq.heappush (entry_lt (combine (heap s) L R).2) q2
          (length (heap s), counter s))
       (S (counter s)) (combine (heap s) L R).2).
Proof.
  intros Hinv Hpop1 Hpop2.
  apply heappop_Ok in Hpop1 as [_ Hq1]. apply heappop_Ok in Hpop2 as [_ Hq2].
  assert (Hq : queue s ≡ₚ (L, cl) :: (R, cr) :: q2) by by rewrite <-Hq1, <-Hq2.
  set (st := heap s) in *. set (n := length st).
  apply tree_inv_perm with (s := LoopState ((n, counter s) :: q2) 0 (combine st L R).2);
    [apply heappush_perm|].
  apply (tree_inv_perm _ _ _ ((L, cl) :: (R, cr) :: q2) 0) in Hinv; [|by symmetry].
  destruct Hinv as [H1 H2 H3 H4 H5]; cbn in H1, H2, H3, H4, H5.
  fold st in H1, H2, H4, H5.
  apply Forall_cons in H2 as [[HrL HsL] H2]. apply Forall_cons in H2 as [[HrR HsR] H2].
  apply Forall_cons in H5 as [HwL H5]. apply Forall_cons in H5 as [HwR H5].
  cbn in HrL, HsL, HrR, HsR, HwL, HwR.
  assert (HvL : valid st L) by (rewrite <-HrL; by apply shape_root_valid).
  assert (HvR : valid st R) by (rewrite <-HrR; by apply shape_root_valid).
  assert (Hgraft : ∀ e, e ∈ q2 →
            graft T n (Internal n (T L) (T R)) e.1 = T e.1).
  { intros e He. unfold graft. case_decide as Hn; [|done].
    rewrite Forall_forall in H2. destruct (H2 e He) as [Hr Hs].
    apply shape_root_valid in Hs. unfold valid in Hs. lia. }
  assert (Hn : graft T n (Internal n (T L) (T R)) n = Internal n (T L) (T R)).
  { unfold graft. by rewrite decide_True. }
  assert (Hbind : ∀ f : tree → list nat,
            q2 ≫= (λ e, f (graft T n (Internal n (T L) (T R)) e.1))
            = q2 ≫= (λ e, f (T e.1))).
  { intros f. apply Forall_bind_ext, Forall_forall. intros; by rewrite Hgraft. }
  split; cbn.
  - rewrite combine_length. fold n. lia.
  - apply Forall_cons. cbn. rewrite Hn. split.
    + split; [done|]. cbn. unfold n. rewrite combine_new by done. cbn.
      split_and!; [|congruence|congruence|by apply shape_combine..].
      unfold valid. rewrite combine_length. lia.
    + apply Forall_forall. intros e He. rewrite Hgraft by done.
      rewrite Forall_forall in H2. destruct (H2 e He). split; [done|].
      by apply shape_combine.
  - rewrite Hn, Hbind. cbn. by rewrite <-H3, <-!app_assoc.
  - rewrite Hn. cbn. rewrite combine_length.
    replace (S (length st) - length st0) with (S (length st - length st0)) by lia.
    rewrite seq_S, <-H4.
    replace (length st0 + (length st - length st0)) with n by (unfold n; lia).
    rewrite (Permutation_app_comm _ [n]), Hbind. cbn. by rewrite <-!app_assoc.
  - apply Forall_cons. cbn [fst]. rewrite Hn. split.
    + cbn [leaves]. unfold n. rewrite combine_new by done. cbn [weight].
      by rewrite total_weight_app, HwL, HwR.
    + apply Forall_forall. intros e He. rewrite Hgraft by done.
      rewrite Forall_forall in H5, H2. rewrite <-(H5 e He).
      destruct (H2 e He) as [Hr Hs%shape_root_valid]. rewrite Hr in Hs.
      by destruct (combine_frame st L R e.1 Hs) as (-> & _).
Qed.

(** In every state the loop reaches, the queue is a forest over the input
    nodes. *)
Lemma reachable_tree_inv st nodes s :
  Forall (λ a, valid st a ∧ is_leaf (st !!! a) = true) nodes →
  reachable st nodes s → ∃ T, tree_inv st nodes T s.
Proof.
  intros Hnodes. induction 1 as [|s s' _ [T IH] Hbody].
  - exists Leaf. by apply tree_inv_init.
  - apply loop_body_inr in Hbody as (L & cl & R & cr & q1 & q2 & H1 & H2 & ->).
    eexists. by eapply tree_inv_step.
Qed.

(** ** The tree [build_tree] returns *)

(** C1: for a non-empty list of [n] leaf nodes [build_tree] returns a node
    that is the root of a tree of the store whose leaves are the input
    nodes (each as often as the list has it), so [n] leaves, with [n - 1]
    internal nodes, all allocated by the call; the weight of the root is
    the sum of the input weights, and every input node is still a leaf and
    is reached from the root along left and right references. *)
Theorem build_tree_correct st nodes :
  nodes ≠ [] →
  Forall (λ a, valid st a ∧ is_leaf (st !!! a) = true) nodes →
  ∃ r st' u,
    build_tree st nodes = Some (Returns r st')
    ∧ root u = r ∧ shape st' u
    ∧ weight (st' !!! r) = total_weight st nodes
    ∧ length (internals u) = length nodes - 1
    ∧ length (leaves u) = length nodes
    ∧ leaves u ≡ₚ nodes
    ∧ internals u ≡ₚ seq (length st) (length nodes - 1)
    ∧ length st' = length st + (length nodes - 1)
    ∧ (∀ a, a ∈ nodes →
         is_leaf (st' !!! a) = true ∧ ∃ path, follow st' r path = Some a).
Proof.
  intros Hne Hnodes.
  destruct (build_tree_total st nodes) as [o Ho].
  destruct (build_tree_reachable _ _ _ Ho) as (s & Hs & Hbody).
  destruct (reachable_tree_inv _ _ _ Hnodes Hs) as [T [H1 H2 H3 H4 H5]].
  apply loop_body_inl in Hbody as [[Hq ->]|(a & c & Hq & ->)];
    rewrite Hq in *; cbn in H2, H3, H4, H5.
  { symmetry in H3. by apply Permutation_nil_r in H3. }
  rewrite app_nil_r in H3, H4.
  rewrite Forall_singleton in H2, H5. destruct H2 as [Hr Hsh].
  cbn in Hr, Hsh, H5.
  pose proof (leaves_internals_length (T a)) as Hlen.
  pose proof (Permutation_length H3) as Hl3.
  pose proof (Permutation_length H4) as Hl4. rewrite length_seq in Hl4.
  assert (Hcount : length (heap s) - length st = length nodes - 1) by lia.
  exists a, (heap s), (T a).
  rewrite <-Hcount, <-(total_weight_perm _ _ _ H3).
  split_and!; try done; try lia.
  intros b Hb. rewrite <-H3 in Hb.
  split; [by eapply shape_leaves|].
  rewrite <-Hr. by apply shape_follow.
Qed.

Lemma build_tree_correct_witness :
  let st := [__init__ 3 (PyStr "A") None None None;
             __init__ 7 (PyStr "B") None None None] in
  ∃ r st', build_tree st [0; 1] = Some (Returns r st')
           ∧ weight (st' !!! r) = 10%Z.
Proof.
  intros st.
  assert (H1 : [0; 1] ≠ []) by discriminate.
  assert (H2 : Forall (λ a, valid st a ∧ is_leaf (st !!! a) = true) [0; 1]).
  { repeat constructor; unfold valid; simpl; lia. }
  destruct (build_tree_correct st [0; 1] H1 H2)
    as (r & st' & u & Hb & _ & _ & Hw & _).
  exists r, st'. split; [exact Hb|exact Hw].
Defined.

(** ** The [parent] attributes *)

Lemma shape_children st u x : shape st u → x ∈ children u → valid st x.
Proof.
  induction u as [a|a l IHl r IHr]; cbn.
  - by intros _ ?%elem_of_nil.
  - intros (_ & _ & _ & Hsl & Hsr).
    intros [->|[->|[?|?]%elem_of_app]%elem_of_cons]%elem_of_cons; auto.
    + by apply shape_root_valid.
    + by apply shape_root_valid.
Qed.

(** The root of a tree whose root is not a leaf is one of its internal
    nodes. *)
Lemma shape_root_internal st u :
  shape st u → is_leaf (st !!! root u) = false → root u ∈ internals u.
Proof.
  destruct u as [a|a l r]; cbn.
  - intros [_ ->]. done.
  - intros _ _. apply elem_of_cons. by left.
Qed.

Lemma parent_inv_perm T q k s :
  q ≡ₚ queue s → parent_inv T s → parent_inv T (LoopState q k (heap s)).
Proof.
  intros Hq [H1 H2]. split; cbn.
  - by rewrite Hq.
  - intros x Hx. rewrite Hq in Hx. destruct (H2 x Hx) as (p & ? & Hin & ?).
    exists p. by rewrite Hq.
Qed.

Lemma parent_inv_init st nodes :
  Forall (λ a, valid st a ∧ is_leaf (st !!! a) = true) nodes →
  parent_inv Leaf (init st nodes).
Proof.
  intros Hnodes.
  apply parent_inv_perm with (s := LoopState (number 0 nodes) 0 st);
    [apply heapify_perm|].
  split; cbn.
  - apply Forall_forall. intros [a c] Ha. cbn.
    rewrite Forall_forall in Hnodes. destruct (Hnodes a) as [_ ->]; [|done].
    rewrite <-(number_fst 0 nodes). by apply (list_elem_of_fmap_2 fst) in Ha.
  - intros x (e & Hx & _)%list_elem_of_bind. by apply elem_of_nil in Hx.
Qed.

Lemma parent_inv_step st0 nodes T s L cl q1 R cr q2 :
  tree_inv st0 nodes T s → parent_inv T s →
  heapq.heappop (entry_lt (heap s)) (queue s) = Ok ((L, cl), q1) →
  heapq.heappop (entry_lt (heap s)) q1 = Ok ((R, cr), q2) →
  parent_inv
    (graft T (length (heap s)) (Internal (length (heap s)) (T L) (T R)))
    (LoopState
       (heapq.heappush (entry_lt (combine (heap s) L R).2) q2
          (length (heap s), counter s))
       (S (counter s)) (combine (heap s) L R).2).
Proof.
  intros Hinv Hpar Hpop1 Hpop2.
  apply heappop_Ok in Hpop1 as [_ Hq1]. apply heappop_Ok in Hpop2 as [_ Hq2].
  assert (Hq : queue s ≡ₚ (L, cl) :: (R, cr) :: q2) by by rewrite <-Hq1, <-Hq2.
  set (st := heap s) in *. set (n := length st).
  apply parent_inv_perm with (s := LoopState ((n, counter s) :: q2) 0 (combine st L R).2);
    [apply heappush_perm|].
  apply (tree_inv_perm _ _ _ ((L, cl) :: (R, cr) :: q2) 0) in Hinv; [|by symmetry].
  apply (parent_inv_perm _ ((L, cl) :: (R, cr) :: q2) 0) in Hpar; [|by symmetry].
  destruct Hinv as [H1 H2 H3 H4 H5]; cbn in H1, H2, H3, H4, H5.
  destruct Hpar as [P1 P2]; cbn in P1, P2.
  fold st in H1, H2, H4, H5, P1, P2.
  apply Forall_cons in H2 as [[HrL HsL] H2]. apply Forall_cons in H2 as [[HrR HsR] H2].
  apply Forall_cons in P1 as [_ P1]. apply Forall_cons in P1 as [_ P1].
  cbn in HrL, HsL, HrR, HsR.
  assert (HvL : valid st L) by (rewrite <-HrL; by apply shape_root_valid).
  assert (HvR : valid st R) by (rewrite <-HrR; by apply shape_root_valid).
  assert (Hgraft : ∀ e, e ∈ q2 →
            graft T n (Internal n (T L) (T R)) e.1 = T e.1).
  { intros e He. unfold graft. case_decide as Hn; [|done].
    rewrite Forall_forall in H2. destruct (H2 e He) as [Hr Hs].
    apply shape_root_valid in Hs. unfold valid in Hs. lia. }
  assert (Hn : graft T n (Internal n (T L) (T R)) n = Internal n (T L) (T R)).
  { unfold graft. by rewrite decide_True. }
  assert (Hbind : ∀ f : tree → list nat,
            q2 ≫= (λ e, f (graft T n (Internal n (T L) (T R)) e.1))
            = q2 ≫= (λ e, f (T e.1))).
  { intros f. apply Forall_bind_ext, Forall_forall. intros; by rewrite Hgraft. }
  assert (Hnodup : NoDup (internals (T L) ++ internals (T R)
                          ++ q2 ≫= (λ e, internals (T e.1)))).
  { rewrite H4. apply NoDup_seq. }
  rewrite Forall_forall in H2, P1.
  split; cbn.
  - apply Forall_cons. cbn. split.
    + intros _. unfold n. by rewrite combine_new.
    + apply Forall_forall. intros e He.
      destruct (H2 e He) as [Hr Hs]. pose proof (shape_root_valid _ _ Hs) as Hv.
      rewrite Hr in Hv.
      destruct (combine_frame st L R e.1 Hv) as (_ & _ & _ & _ & ->).
      intros Hleaf. rewrite combine_parent by done.
      rewrite bool_decide_eq_false_2; [by apply P1|].
      assert (e.1 ∈ q2 ≫= (λ e, internals (T e.1))) as Hin.
      { apply list_elem_of_bind. exists e. split; [|done].
        rewrite <-Hr at 1. apply (shape_root_internal st); by rewrite ?Hr. }
      intros [HeL|HeR].
      * apply NoDup_app in Hnodup as (_ & Hdis & _). apply (Hdis e.1).
        -- rewrite HeL. rewrite <-HrL at 1.
           apply (shape_root_internal st); [done|]. by rewrite HrL, <-HeL.
        -- apply elem_of_app. by right.
      * apply NoDup_app in Hnodup as (_ & _ & Hnodup).
        apply NoDup_app in Hnodup as (_ & Hdis & _). apply (Hdis e.1); [|done].
        rewrite HeR. rewrite <-HrR at 1.
        apply (shape_root_internal st); [done|]. by rewrite HrR, <-HeR.
  - rewrite Hn, !Hbind. cbn. rewrite HrL, HrR. intros x Hx.
    destruct (decide (x = L ∨ x = R)) as [HLR|HLR].
    + exists n. split_and!.
      * rewrite combine_parent by by destruct HLR as [-> | ->].
        by rewrite bool_decide_eq_true_2.
      * apply elem_of_cons. by left.
      * unfold n. rewrite combine_new by done. cbn.
        destruct HLR as [-> | ->]; auto.
    + assert (x ∈ children (T L) ++ children (T R)
                  ++ q2 ≫= (λ e, children (T e.1))) as Hx'.
      { rewrite <-app_assoc in Hx.
        apply elem_of_cons in Hx as [->|Hx]; [by destruct HLR; left|].
        apply elem_of_cons in Hx as [->|Hx]; [by destruct HLR; right|]. done. }
      destruct (P2 x Hx') as (p & Hp & Hpin & Hplr).
      assert (valid st x) as Hvx.
      { apply elem_of_app in Hx' as [?|[?|(e & ? & He)%list_elem_of_bind]%elem_of_app].
        - by apply (shape_children st (T L)).
        - by apply (shape_children st (T R)).
        - destruct (H2 e He) as [_ ?]. by apply (shape_children st (T e.1)). }
      assert (valid st p) as Hvp.
      { apply elem_of_app in Hpin as [?|[?|(e & ? & He)%list_elem_of_bind]%elem_of_app].
        - by apply (shape_internals st (T L)).
        - by apply (shape_internals st (T R)).
        - destruct (H2 e He) as [_ ?]. by apply (shape_internals st (T e.1)). }
      exists p. split_and!.
      * rewrite combine_parent by done. by rewrite bool_decide_eq_false_2.
      * apply elem_of_cons. right. by rewrite <-app_assoc.
      * by destruct (combine_frame st L R p Hvp) as (_ & _ & -> & -> & _).
Qed.

(** In every state the loop reaches both invariants hold, of the same
    forest. *)
Lemma reachable_parent_inv st nodes s :
  Forall (λ a, valid st a ∧ is_leaf (st !!! a) = true) nodes →
  reachable st nodes s → ∃ T, tree_inv st nodes T s ∧ parent_inv T s.
Proof.
  intros Hnodes. induction 1 as [|s s' _ (T & IH1 & IH2) Hbody].
  - exists Leaf. split; [by apply tree_inv_init|by apply parent_inv_init].
  - apply loop_body_inr in Hbody as (L & cl & R & cr & q1 & q2 & H1 & H2 & ->).
    eexists. split; [by eapply tree_inv_step|by eapply parent_inv_step].
Qed.

(** ** Positions in a tree *)

Lemma subtree_app u p k : subtree u (p ++ k) = subtree u p ≫= λ v, subtree v k.
Proof.
  revert u; induction p as [|d p IH]; intros u; simpl; [done|].
  destruct u as [a|a l r]; [done|]. apply IH.
Qed.

Lemma subtree_leaf a p v : subtree (Leaf a) p = Some v → p = [] ∧ v = Leaf a.
Proof. destruct p; cbn; [by intros [= <-]|done]. Qed.

Lemma subtree_shape st u p v : shape st u → subtree u p = Some v → shape st v.
Proof.
  revert u; induction p as [|d p IH]; intros u; cbn.
  - by intros ? [= <-].
  - destruct u as [a|a l r]; [done|]. cbn. intros (_ & _ & _ & Hl & Hr).
    apply IH. by destruct d.
Qed.

Lemma subtree_internals u p a l r :
  subtree u p = Some (Internal a l r) → a ∈ internals u.
Proof.
  revert u; induction p as [|d p IH]; intros u; cbn.
  - intros [= ->]. apply elem_of_cons. by left.
  - destruct u as [b|b l' r']; [done|]. intros H%IH. cbn.
    apply elem_of_cons. right. apply elem_of_app. destruct d; auto.
Qed.

Lemma internals_subtree u a :
  a ∈ internals u → ∃ p l r, subtree u p = Some (Internal a l r).
Proof.
  induction u as [b|b l IHl r IHr]; cbn.
  - by intros ?%elem_of_nil.
  - intros [->|[H|H]%elem_of_app]%elem_of_cons.
    + by exists [], l, r.
    + destruct (IHl H) as (p & l' & r' & Hp). by exists (false :: p), l', r'.
    + destruct (IHr H) as (p & l' & r' & Hp). by exists (true :: p), l', r'.
Qed.

Lemma leaves_subtree u a : a ∈ leaves u → ∃ p, subtree u p = Some (Leaf a).
Proof.
  induction u as [b|b l IHl r IHr]; cbn.
  - intros ->%list_elem_of_singleton. by exists [].
  - intros [H|H]%elem_of_app.
    + destruct (IHl H) as [p Hp]. by exists (false :: p).
    + destruct (IHr H) as [p Hp]. by exists (true :: p).
Qed.


(** The node at a position below the root is a child. *)
Lemma subtree_snoc_children u p d v :
  subtree u (p ++ [d]) = Some v → root v ∈ children u.
Proof.
  revert u; induction p as [|d' p IH]; intros [a|a l r]; cbn; try done.
  - intros [= <-]. rewrite !elem_of_cons. destruct d; auto.
  - intros H%IH. rewrite !elem_of_cons, elem_of_app. destruct d'; auto.
Qed.

(** An internal node lies less deep than the tree has internal nodes. *)
Lemma subtree_depth u p a l r :
  subtree u p = Some (Internal a l r) → length p < length (internals u).
Proof.
  revert u; induction p as [|d p IH]; intros u; cbn.
  - intros [= ->]. cbn. lia.
  - destruct u as [b|b l' r']; [done|]. intros H%IH. cbn.
    rewrite length_app. destruct d; lia.
Qed.

(** A tree whose internal nodes are distinct has each at one position. *)
Lemma internal_position_unique u p1 p2 a l1 r1 l2 r2 :
  NoDup (internals u) →
  subtree u p1 = Some (Internal a l1 r1) →
  subtree u p2 = Some (Internal a l2 r2) → p1 = p2.
Proof.
  revert p1 p2; induction u as [b|b l IHl r IHr]; intros p1 p2; cbn.
  { by intros _ [_ [=]]%subtree_leaf. }
  intros [Hb (Hnl & Hdis & Hnr)%NoDup_app]%NoDup_cons.
  - destruct p1 as [|d1 p1], p2 as [|d2 p2]; cbn; try done.
    + intros [= -> _ _] H%subtree_internals.
      destruct Hb. apply elem_of_app. destruct d2; auto.
    + intros H%subtree_internals [= -> _ _].
      destruct Hb. apply elem_of_app. destruct d1; auto.
    + intros H1 H2. destruct d1, d2.
      * f_equal. by apply IHr.
      * apply subtree_internals in H1, H2. by destruct (Hdis a).
      * apply subtree_internals in H1, H2. by destruct (Hdis a).
      * f_equal. by apply IHl.
Qed.

(** ** The code of a node is its position in the tree *)

Lemma code_loop_None fuel st turns :
  code_loop fuel st turns None = Some (Ok (String.concat "" turns)).
Proof. by destruct fuel. Qed.

(** The parent of a child [x] of [u] is the internal node above a position
    of the tree [v] of [x], and the direction is the last turn to it. *)
Lemma linked_parent_position st u x v :
  linked st u → x ∈ children u → shape st v → root v = x →
  ∃ q p l r d,
    parent (st !!! x) = Some q
    ∧ direction_from_parent st x = Ok (turn d)
    ∧ subtree u p = Some (Internal q l r)
    ∧ subtree u (p ++ [d]) = Some v.
Proof.
  intros [Hsh Hnd Hsz Hroot Hchild] Hx Hv Hrv.
  destruct (Hchild x Hx) as (q & Hq & Hqin & Hlr).
  destruct (internals_subtree _ _ Hqin) as (p & l & r & Hp).
  pose proof (subtree_shape _ _ _ _ Hsh Hp) as (_ & Hl & Hr & Hsl & Hsr).
  exists q, p, l, r, (negb (bool_decide (left (st !!! q) = Some x))).
  split_and!; [done|by apply direction_from_parent_Some|done|].
  rewrite subtree_app, Hp. cbn. f_equal. case_bool_decide as Hd; cbn.
  - apply (shape_unique st); [done..|]. congruence.
  - apply (shape_unique st); [done..|]. destruct Hlr; congruence.
Qed.

Lemma code_loop_internal st u :
  linked st u →
  ∀ p a l r turns fuel,
    subtree u p = Some (Internal a l r) → length p < fuel →
    code_loop fuel st turns (Some a)
    = Some (Ok (String.concat "" ((turn <$> p) ++ turns))).
Proof.
  intros Hlinked p. induction p as [|d p IH] using rev_ind;
    intros a l r turns [|fuel] Hsub Hfuel; try (cbn in Hfuel; lia).
  - cbn in Hsub. injection Hsub as Hu. destruct Hlinked as [Hsh _ _ Hroot _].
    rewrite Hu in Hsh, Hroot. cbn in Hsh, Hroot. destruct Hsh as (_ & Hl & _).
    cbn. rewrite Hroot, code_loop_None; [done|].
    unfold is_leaf. by rewrite Hl, andb_false_r.
  - pose proof (subtree_snoc_children _ _ _ _ Hsub) as Hchild. cbn in Hchild.
    assert (shape st (Internal a l r)) as Hsa.
    { eapply subtree_shape; [|done]. by destruct Hlinked. }
    destruct (linked_parent_position st u a _ Hlinked Hchild Hsa eq_refl)
      as (q & p' & l' & r' & d' & Hq & Hdir & Hp' & Hpd).
    assert (p' ++ [d'] = p ++ [d]) as [-> ->]%app_inj_tail.
    { eapply internal_position_unique; [|done..]. by destruct Hlinked. }
    rewrite length_app in Hfuel. cbn in Hfuel.
    cbn. rewrite Hq, Hdir. erewrite IH; [|done|lia].
    by rewrite fmap_app, <-app_assoc.
Qed.

(** In a tree that is not a single leaf, the code of a leaf spells a
    position of that leaf. *)
Lemma code_position st u x :
  linked st u → is_leaf (st !!! root u) = false → x ∈ leaves u →
  ∃ p, code st x = Some (Ok (spell p)) ∧ subtree u p = Some (Leaf x) ∧ p ≠ [].
Proof.
  intros Hlinked Hroot Hx.
  pose proof (linked_shape _ _ Hlinked) as Hsh.
  destruct (shape_leaves _ _ _ Hsh Hx) as [Hvx Hlx].
  destruct (leaves_subtree _ _ Hx) as [p0 Hp0].
  destruct p0 as [|d0 p0 _] using rev_ind.
  { cbn in Hp0. injection Hp0 as ->. cbn in Hroot. congruence. }
  pose proof (subtree_snoc_children _ _ _ _ Hp0) as Hchild. cbn in Hchild.
  assert (shape st (Leaf x)) as Hsx by done.
  destruct (linked_parent_position st u x _ Hlinked Hchild Hsx eq_refl)
    as (q & p & l & r & d & Hq & Hdir & Hp & Hpd).
  exists (p ++ [d]). split_and!; [|done|by destruct p].
  unfold code. rewrite Hlx. cbn. rewrite Hq, Hdir.
  erewrite (code_loop_internal st u Hlinked p); [|done|].
  - unfold spell. by rewrite fmap_app.
  - apply subtree_depth in Hp. destruct Hlinked. lia.
Qed.

(** ** The fuel of [code] *)



(** A node with a parent is a node of the store. *)
Lemma parent_valid st n p : parent (st !!! n) = Some p → valid st n.
Proof.
  intros Hp. destruct (decide (n < length st)) as [|Hn]; [done|].
  rewrite list_lookup_total_alt, lookup_ge_None_2 in Hp by lia. done.
Qed.





(** ** Codes as strings *)

Lemma concat_turn d turns :
  String.concat "" (turn d :: turns)
  = String (if d then "1" else "0")%char (String.concat "" turns).
Proof. by destruct turns, d. Qed.

Lemma spell_cons d p :
  spell (d :: p) = String (if d then "1" else "0")%char (spell p).
Proof. apply concat_turn. Qed.

Lemma spell_binary p : binary (spell p).
Proof.
  induction p as [|d p IH]; [done|]. rewrite spell_cons. cbn.
  split; [destruct d; auto|done].
Qed.

Lemma spell_nonempty p : p ≠ [] → spell p ≠ ""%string.
Proof. destruct p; [done|]. by rewrite spell_cons. Qed.

(** A code that is a prefix of another spells a path that the other path
    extends. *)
Lemma spell_prefix p1 p2 :
  String.prefix (spell p1) (spell p2) = true → ∃ k, p2 = p1 ++ k.
Proof.
  revert p2; induction p1 as [|d1 p1 IH]; intros p2; [by exists p2|].
  destruct p2 as [|d2 p2]; rewrite !spell_cons; cbn; [done|].
  destruct (ascii_dec _ _) as [Hd|]; [|done].
  intros [k ->]%IH. exists k. by destruct d1, d2.
Qed.

(** ** The codes of the tree [build_tree] returns *)

(** When the loop has ended with one entry, the [parent] attributes are
    those of its tree. *)
Lemma final_linked st nodes T s a c :
  0 < length st → tree_inv st nodes T s → parent_inv T s →
  queue s = [(a, c)] →
  root (T a) = a ∧ linked (heap s) (T a) ∧ leaves (T a) ≡ₚ nodes.
Proof.
  intros Hst [H1 H2 H3 H4 H5] [P1 P2] Hq. rewrite Hq in *.
  cbn in H2, H3, H4, P1, P2. rewrite app_nil_r in H3, H4, P2.
  rewrite Forall_singleton in H2, P1. cbn in H2, P1. destruct H2 as [Hr Hsh].
  split_and!; [done| |done]. split; try done.
  - rewrite H4. apply NoDup_seq.
  - rewrite (Permutation_length H4), length_seq. lia.
  - by rewrite Hr.
  - intros x Hx. destruct (P2 x Hx) as (p & ? & Hp & ?). exists p.
    by rewrite app_nil_r in Hp.
Qed.

(** From two nodes on, the node [build_tree] returns is not a leaf, and the
    [parent] attributes are those of its tree. *)
Lemma build_tree_linked st nodes :
  2 ≤ length nodes →
  Forall (λ a, valid st a ∧ is_leaf (st !!! a) = true) nodes →
  ∃ r st' u,
    build_tree st nodes = Some (Returns r st')
    ∧ root u = r ∧ linked st' u ∧ leaves u ≡ₚ nodes
    ∧ is_leaf (st' !!! r) = false.
Proof.
  intros Hlen Hnodes.
  destruct (build_tree_total st nodes) as [o Ho].
  destruct (build_tree_reachable _ _ _ Ho) as (s & Hs & Hbody).
  destruct (reachable_parent_inv _ _ _ Hnodes Hs) as (T & Hinv & Hpar).
  assert (0 < length st) as Hst.
  { destruct nodes as [|a nodes]; [cbn in Hlen; lia|].
    apply Forall_cons in Hnodes as [[Ha _] _]. unfold valid in Ha. lia. }
  apply loop_body_inl in Hbody as [[Hq ->]|(a & c & Hq & ->)].
  { destruct Hinv as [_ _ H3 _ _]. rewrite Hq in H3. cbn in H3.
    apply Permutation_length in H3. cbn in H3. lia. }
  destruct (final_linked _ _ _ _ _ _ Hst Hinv Hpar Hq) as (Hr & Hlinked & Hleaves).
  exists a, (heap s), (T a). split_and!; try done.
  pose proof (linked_shape _ _ Hlinked) as Hsh.
  destruct (T a) as [b|b l r]; cbn in *.
  - apply Permutation_length in Hleaves. cbn in Hleaves. lia.
  - destruct Hsh as (_ & Hl & _). subst b. unfold is_leaf.
    by rewrite Hl, andb_false_r.
Qed.

(** C3: from two leaves on, the leaves of the tree [build_tree] returns
    are the input nodes, and each has a code: a non-empty string over the
    characters 0 and 1; of two distinct leaves the code of the one is no
    prefix of the code of the other. *)
Theorem codes_prefix_free st nodes :
  2 ≤ length nodes →
  Forall (λ a, valid st a ∧ is_leaf (st !!! a) = true) nodes →
  ∃ r st' u,
    build_tree st nodes = Some (Returns r st')
    ∧ root u = r ∧ shape st' u ∧ leaves u ≡ₚ nodes
    ∧ (∀ a, a ∈ leaves u →
         ∃ c, code st' a = Some (Ok c) ∧ binary c ∧ c ≠ ""%string)
    ∧ (∀ a b ca cb,
         a ∈ leaves u → b ∈ leaves u → a ≠ b →
         code st' a = Some (Ok ca) → code st' b = Some (Ok cb) →
         String.prefix ca cb = false).
Proof.
  intros Hlen Hnodes.
  destruct (build_tree_linked st nodes Hlen Hnodes)
    as (r & st' & u & Hb & Hr & Hlinked & Hleaves & Hroot).
  exists r, st', u. rewrite <-Hr in Hroot.
  split_and!; [done..|by destruct Hlinked|done| |].
  - intros a Ha.
    destruct (code_position st' u a Hlinked Hroot Ha) as (p & Hc & _ & Hp).
    exists (spell p). split_and!; [done|apply spell_binary|by apply spell_nonempty].
  - intros a b ca cb Ha Hb' Hab Hca Hcb.
    destruct (code_position st' u a Hlinked Hroot Ha) as (pa & Hpa & Hsa & _).
    destruct (code_position st' u b Hlinked Hroot Hb') as (pb & Hpb & Hsb & _).
    assert (ca = spell pa) as -> by congruence.
    assert (cb = spell pb) as -> by congruence.
    destruct (String.prefix _ _) eqn:Hpre; [|done].
    apply spell_prefix in Hpre as [k ->].
    rewrite subtree_app, Hsa in Hsb. cbn in Hsb.
    apply subtree_leaf in Hsb as [_ [= ->]]. done.
Qed.

Lemma codes_prefix_free_witness :
  let st := [__init__ 3 (PyStr "A") None None None;
             __init__ 7 (PyStr "B") None None None] in
  ∃ r st', build_tree st [0; 1] = Some (Returns r st')
           ∧ ∃ c, code st' 0 = Some (Ok c) ∧ binary c ∧ c ≠ ""%string.
Proof.
  intros st.
  assert (H1 : 2 ≤ length [0; 1]) by (simpl; lia).
  assert (H2 : Forall (λ a, valid st a ∧ is_leaf (st !!! a) = true) [0; 1]).
  { repeat constructor; unfold valid; simpl; lia. }
  destruct (codes_prefix_free st [0; 1] H1 H2)
    as (r & st' & u & Hb & _ & _ & Hl & Hc & _).
  exists r, st'. split; [exact Hb|]. apply Hc. rewrite Hl. repeat constructor.
Defined.

(** ** The order of the queue of [build_tree] *)

(** The tuples of the queue are compared by weight, and by count among
    equal weights. *)
Lemma entry_lt_key st x y :
  entry_lt st x y = true ↔ key_lt (key st x) (key st y).
Proof.
  unfold entry_lt, key_lt, key, __eq__, __lt__. cbn.
  destruct (decide (x.1 = y.1)) as [->|Hne].
  - rewrite bool_decide_eq_true_2 by done. cbn.
    rewrite bool_decide_eq_true. lia.
  - rewrite bool_decide_eq_false_2 by done. cbn.
    destruct (Z.eqb_spec (weight (st !!! x.1)) (weight (st !!! y.1))).
    + rewrite bool_decide_eq_true. lia.
    + rewrite Z.ltb_lt. lia.
Qed.

Lemma entry_lt_false st x y :
  entry_lt st x y = false ↔ ¬ key_lt (key st x) (key st y).
Proof. rewrite <-entry_lt_key. by destruct (entry_lt st x y). Qed.

Lemma entry_lt_asym st x y : entry_lt st x y = true → entry_lt st y x = false.
Proof. rewrite entry_lt_key, entry_lt_false. unfold key_lt. lia. Qed.

Lemma entry_le_trans st x y z :
  entry_lt st y x = false → entry_lt st z y = false → entry_lt st z x = false.
Proof. rewrite !entry_lt_false. unfold key_lt. lia. Qed.

(** [combine] changes no weight, so it changes the order of no two nodes
    that were there. *)
Lemma entry_lt_combine st L R x y :
  valid st x.1 → valid st y.1 →
  entry_lt (combine st L R).2 x y = entry_lt st x y.
Proof.
  intros Hx Hy. unfold entry_lt, __eq__, __lt__.
  destruct (combine_frame st L R x.1 Hx) as (-> & _).
  by destruct (combine_frame st L R y.1 Hy) as (-> & _).
Qed.

Lemma heap_from_ext {A} `{!Inhabited A} (lt1 lt2 : A → A → bool) h s :
  (∀ x y, x ∈ h → y ∈ h → lt1 x y = lt2 x y) →
  heap_from lt1 h s → heap_from lt2 h s.
Proof.
  intros Hext Hh j Hj H0 Hs.
  assert (Nat.div2 (j - 1) < j) by (apply parentpos_lt; lia).
  rewrite <-Hext; [by apply Hh| |]; apply list_elem_of_lookup_total_2; lia.
Qed.

Lemma number_zip k nodes : number k nodes = zip nodes (seq k (length nodes)).
Proof. revert k; induction nodes; intros k; cbn; f_equal; auto. Qed.

Lemma queue_inv_init st nodes :
  Forall (valid st) nodes → queue_inv (init st nodes).
Proof.
  intros Hnodes. split; cbn.
  - apply heapify_heap; [apply entry_lt_asym|apply entry_le_trans].
  - rewrite heapify_perm. apply Forall_forall. intros [a c] Ha. cbn.
    rewrite Forall_forall in Hnodes. apply Hnodes.
    rewrite <-(number_fst 0 nodes). by apply (list_elem_of_fmap_2 fst) in Ha.
  - rewrite heapify_perm. apply Forall_forall. intros [a c] Ha. cbn.
    apply (list_elem_of_fmap_2 snd) in Ha. rewrite number_snd in Ha.
    apply list_elem_of_In, in_seq in Ha. cbn in Ha. lia.
  - rewrite heapify_perm, number_snd. apply NoDup_seq.
Qed.

Lemma queue_inv_step s s' :
  queue_inv s → loop_body s = inr s' → queue_inv s'.
Proof.
  intros [Hh Hv Hc Hn] (L & cl & R & cr & q1 & q2 & H1 & H2 & ->)%loop_body_inr.
  set (st := heap s) in *.
  destruct (heappop_heap _ (entry_lt_asym st) (entry_le_trans st) _ _ _ Hh H1)
    as [Hh1 _].
  destruct (heappop_heap _ (entry_lt_asym st) (entry_le_trans st) _ _ _ Hh1 H2)
    as [Hh2 _].
  apply heappop_Ok in H1 as [_ H1]. apply heappop_Ok in H2 as [_ H2].
  rewrite <-H1, <-H2 in Hv, Hc, Hn. cbn in Hn.
  apply Forall_cons in Hv as [HvL Hv]. apply Forall_cons in Hv as [HvR Hv].
  apply Forall_cons in Hc as [_ Hc]. apply Forall_cons in Hc as [_ Hc].
  apply NoDup_cons in Hn as [_ Hn]. apply NoDup_cons in Hn as [_ Hn].
  rewrite Forall_forall in Hv, Hc.
  split; cbn.
  - apply heappush_heap; [apply entry_lt_asym|apply entry_le_trans|].
    eapply heap_from_ext; [|exact Hh2]. intros x y Hx Hy. symmetry.
    apply entry_lt_combine; by apply Hv.
  - rewrite heappush_perm. apply Forall_cons. cbn. unfold valid.
    rewrite combine_length. split; [fold st; lia|].
    apply Forall_forall. intros e He. apply Hv in He. unfold valid in He. lia.
  - rewrite heappush_perm. apply Forall_cons. cbn. split; [lia|].
    apply Forall_forall. intros e He. apply Hc in He. lia.
  - rewrite heappush_perm. cbn. apply NoDup_cons. split; [|done].
    intros (e & He1 & He2)%list_elem_of_fmap. apply Hc in He2. cbn in He1. lia.
Qed.

Lemma reachable_queue_inv st nodes s :
  Forall (valid st) nodes → reachable st nodes s → queue_inv s.
Proof.
  intros Hnodes. induction 1; [by apply queue_inv_init|].
  by eapply queue_inv_step.
Qed.

(** In a queue that satisfies the invariant [heappop] returns the entry
    that is first in the order of keys, strictly before every other. *)
Lemma heappop_first st q x q' :
  heap_ordered (entry_lt st) q → NoDup q.*2 →
  heapq.heappop (entry_lt st) q = Ok (x, q') →
  heap_ordered (entry_lt st) q' ∧ NoDup q'.*2
  ∧ ∀ y, y ∈ q' → key_lt (key st x) (key st y).
Proof.
  intros Hh Hn Hpop.
  destruct (heappop_heap _ (entry_lt_asym st) (entry_le_trans st) _ _ _ Hh Hpop)
    as [Hh' Hmin].
  apply heappop_Ok in Hpop as [_ Hperm]. rewrite <-Hperm in Hn.
  cbn in Hn. apply NoDup_cons in Hn as [Hx Hn]. split_and!; [done..|].
  intros y Hy.
  assert (y.2 ≠ x.2) as Hne.
  { intros Heq. apply Hx. rewrite <-Heq. by apply list_elem_of_fmap_2. }
  assert (entry_lt st y x = false) as Hyx.
  { apply Hmin. rewrite <-Hperm. apply elem_of_cons. by right. }
  apply entry_lt_false in Hyx. unfold key_lt, key in *. cbn in *. lia.
Qed.

Lemma heappop_singleton {A} `{!Inhabited A} (lt : A → A → bool) x :
  heapq.heappop lt [x] = Ok (x, []).
Proof. done. Qed.

Lemma loop_body_single s a c :
  queue s = [(a, c)] → loop_body s = inl (Returns a (heap s)).
Proof. intros Hq. unfold loop_body. by rewrite Hq, heappop_singleton. Qed.

Lemma loop_body_pops s L cl q1 R cr q2 :
  heapq.heappop (entry_lt (heap s)) (queue s) = Ok ((L, cl), q1) →
  heapq.heappop (entry_lt (heap s)) q1 = Ok ((R, cr), q2) →
  loop_body s
  = inr (LoopState
           (heapq.heappush (entry_lt (combine (heap s) L R).2) q2
              (length (heap s), counter s))
           (S (counter s)) (combine (heap s) L R).2).
Proof. intros H1 H2. unfold loop_body. by rewrite H1, H2. Qed.

(** A run of [build_tree] passes through the states that [reachable]
    lists: from each of them the loop goes on to the outcome of the call. *)
Lemma reachable_run st nodes s :
  reachable st nodes s →
  build_tree st nodes = loop (S (length (queue s))) s.
Proof.
  induction 1 as [|s s' _ IH Hbody].
  - unfold build_tree. cbn [init queue].
    by rewrite (Permutation_length (heapify_perm _ _)), number_length.
  - rewrite IH. cbn [loop]. rewrite Hbody.
    apply loop_body_perm in Hbody as (L & cl & R & cr & q2 & Hq & Hq' & _).
    apply Permutation_length in Hq, Hq'. cbn in Hq, Hq'.
    by rewrite Hq, Hq'.
Qed.

(** C2: the tuples of the queue are ordered by weight and, among equal
    weights, by count; the counts of the input nodes are 0, 1, ... in the
    order of the list and the counter then stands at their number. The
    call passes through the states that [reachable] lists, and in each of
    them the counts of the queue are distinct and below the counter. With
    two or more entries in the queue the iteration goes on: the node it
    takes first, which becomes the left child, comes strictly before every
    other entry in that order (the smallest weight, and the smallest count
    among the entries of that weight), and the node it takes second, the
    right child, strictly before every entry that stays; the node it
    allocates for the two is pushed with the count of the counter, which
    the iteration increments by one. With one entry left the call returns
    its node. *)
Theorem queue_order st nodes s :
  Forall (valid st) nodes → reachable st nodes s →
  (∀ x y, entry_lt (heap s) x y = true
          ↔ (weight (heap s !!! x.1) < weight (heap s !!! y.1))%Z
            ∨ (weight (heap s !!! x.1) = weight (heap s !!! y.1) ∧ x.2 < y.2))
  ∧ queue (init st nodes) ≡ₚ zip nodes (seq 0 (length nodes))
  ∧ counter (init st nodes) = length nodes
  ∧ NoDup (queue s).*2
  ∧ Forall (λ e, e.2 < counter s) (queue s)
  ∧ (∀ x q1,
       heapq.heappop (entry_lt (heap s)) (queue s) = Ok (x, q1) →
       (∀ y, y ∈ q1 → key_lt (key (heap s) x) (key (heap s) y))
       ∧ (∀ x' q2,
            heapq.heappop (entry_lt (heap s)) q1 = Ok (x', q2) →
            ∀ y, y ∈ q2 → key_lt (key (heap s) x') (key (heap s) y)))
  ∧ (∀ s', loop_body s = inr s' →
       counter s' = S (counter s)
       ∧ ∃ L cl R cr q2,
           queue s ≡ₚ (L, cl) :: (R, cr) :: q2
           ∧ queue s' ≡ₚ (length (heap s), counter s) :: q2
           ∧ heap s' = (combine (heap s) L R).2
           ∧ (∀ y, y ∈ (R, cr) :: q2 →
                key_lt (key (heap s) (L, cl)) (key (heap s) y))
           ∧ (∀ y, y ∈ q2 → key_lt (key (heap s) (R, cr)) (key (heap s) y))
           ∧ left (heap s' !!! length (heap s)) = Some L
           ∧ right (heap s' !!! length (heap s)) = Some R
           ∧ weight (heap s' !!! length (heap s))
             = (weight (heap s !!! L) + weight (heap s !!! R))%Z
           ∧ ∃ q1,
               heapq.heappop (entry_lt (heap s)) (queue s) = Ok ((L, cl), q1)
               ∧ heapq.heappop (entry_lt (heap s)) q1 = Ok ((R, cr), q2)
               ∧ queue s'
                 = heapq.heappush (entry_lt (heap s')) q2
                     (length (heap s), counter s))
  ∧ (2 ≤ length (queue s) → ∃ s', loop_body s = inr s')
  ∧ (∀ a c, queue s = [(a, c)] → loop_body s = inl (Returns a (heap s)))
  ∧ build_tree st nodes = loop (S (length (queue s))) s.
Proof.
  intros Hnodes Hs.
  destruct (reachable_queue_inv _ _ _ Hnodes Hs) as [Hh Hv Hc Hn].
  split_and!; try done.
  - intros x y. apply entry_lt_key.
  - rewrite <-number_zip. apply init_queue.
  - intros x q1 H1.
    destruct (heappop_first _ _ _ _ Hh Hn H1) as (Hh1 & Hn1 & Hmin1).
    split; [done|]. intros x' q2 H2.
    by destruct (heappop_first _ _ _ _ Hh1 Hn1 H2) as (_ & _ & Hmin2).
  - intros s' Hbody.
    destruct (loop_body_perm _ _ Hbody) as (? & ? & ? & ? & ? & _ & _ & _ & Hk).
    split; [done|].
    apply loop_body_inr in Hbody as (L & cl & R & cr & q1 & q2 & H1 & H2 & ->).
    destruct (heappop_first _ _ _ _ Hh Hn H1) as (Hh1 & Hn1 & Hmin1).
    destruct (heappop_first _ _ _ _ Hh1 Hn1 H2) as (_ & _ & Hmin2).
    pose proof (heappop_Ok _ _ _ _ H1) as [_ Hq1].
    pose proof (heappop_Ok _ _ _ _ H2) as [_ Hq2].
    rewrite <-Hq1, <-Hq2 in Hv.
    apply Forall_cons in Hv as [HvL Hv]. apply Forall_cons in Hv as [HvR Hv].
    cbn in HvL, HvR.
    exists L, cl, R, cr, q2. cbn [heap queue].
    rewrite combine_new by done. cbn [left right weight].
    split_and!; try done.
    + by rewrite <-Hq1, <-Hq2.
    + apply heappush_perm.
    + intros y Hy. apply Hmin1. by rewrite <-Hq2.
    + by exists q1.
  - intros Hlen. destruct (queue s) as [|x [|y q]] eqn:Hq; cbn in Hlen; try lia.
    destruct (heappop_cons (entry_lt (heap s)) x (y :: q)) as (q1 & H1 & Hq1).
    destruct q1 as [|z q1].
    { apply Permutation_length in Hq1. done. }
    destruct (heappop_cons (entry_lt (heap s)) z q1) as (q2 & H2 & _).
    destruct x as [L cl], z as [R cr]. rewrite <-Hq in H1.
    eexists. by apply (loop_body_pops _ _ _ _ _ _ _ H1 H2).
  - intros a c Hq. by apply (loop_body_single _ _ c).
  - by apply reachable_run.
Qed.

Lemma queue_order_witness :
  let st := [__init__ 1 (PyStr "A") None None None;
             __init__ 1 (PyStr "B") None None None;
             __init__ 2 (PyStr "C") None None None] in
  ∃ s1 s2,
    loop_body (init st [2; 0; 1]) = inr s1 ∧ loop_body s1 = inr s2
    ∧ left (heap s1 !!! 3) = Some 0 ∧ right (heap s1 !!! 3) = Some 1
    ∧ left (heap s2 !!! 4) = Some 2 ∧ right (heap s2 !!! 4) = Some 3
    ∧ counter s2 = 5.
Proof.
  intros st.
  assert (H1 : Forall (valid st) [2; 0; 1]).
  { repeat constructor; unfold valid; simpl; lia. }
  pose (s1 := ltac:(let t := eval vm_compute in (loop_body (init st [2; 0; 1]))
                    in match t with inr ?s => exact s end) : loop_state).
  pose (s2 := ltac:(let t := eval vm_compute in (loop_body s1)
                    in match t with inr ?s => exact s end) : loop_state).
  assert (Hb1 : loop_body (init st [2; 0; 1]) = inr s1) by reflexivity.
  assert (Hb2 : loop_body s1 = inr s2) by reflexivity.
  exists s1, s2. split; [exact Hb1|]. split; [exact Hb2|].
  pose proof (reachable_init st [2; 0; 1]) as Hr0.
  pose proof (reachable_step st [2; 0; 1] _ _ Hr0 Hb1) as Hr1.
  destruct (queue_order st [2; 0; 1] _ H1 Hr0)
    as (_ & _ & _ & _ & _ & _ & Hstep0 & _).
  destruct (queue_order st [2; 0; 1] _ H1 Hr1)
    as (_ & _ & _ & _ & _ & _ & Hstep1 & _).
  destruct (Hstep0 _ Hb1) as (_ & L & cl & R & cr & q2 & _ & _ & _ & _ & _
                               & Hl & Hr & _ & q1 & Hp1 & Hp2 & _).
  destruct (Hstep1 _ Hb2) as (Hc & L' & cl' & R' & cr' & q2' & _ & _ & _ & _ & _
                               & Hl' & Hr' & _ & q1' & Hp1' & Hp2' & _).
  assert (HL : L = 0 ∧ R = 1).
  { clear -Hp1 Hp2. vm_compute in Hp1. injection Hp1 as <- <- <-.
    vm_compute in Hp2. injection Hp2 as <- <- <-. done. }
  assert (HL' : L' = 2 ∧ R' = 3).
  { clear -Hp1' Hp2'. vm_compute in Hp1'. injection Hp1' as <- <- <-.
    vm_compute in Hp2'. injection Hp2' as <- <- <-. done. }
  destruct HL as [-> ->], HL' as [-> ->].
  split_and!; [exact Hl|exact Hr|exact Hl'|exact Hr'|exact Hc].
Defined.

(** ** What two runs have in common *)

Lemma entry_lt_rel st1 st2 x1 x2 y1 y2 :
  key st1 x1 = key st2 x2 → key st1 y1 = key st2 y2 →
  entry_lt st1 x1 y1 = entry_lt st2 x2 y2.
Proof.
  intros Hx Hy.
  pose proof (entry_lt_key st1 x1 y1) as H1.
  pose proof (entry_lt_key st2 x2 y2) as H2. rewrite Hx, Hy in H1.
  destruct (entry_lt st1 x1 y1), (entry_lt st2 x2 y2); try done.
  - symmetry. by apply H2, H1.
  - by apply H1, H2.
Qed.

Lemma similar_erase ρ u1 u2 : similar ρ u1 u2 → erase u1 = erase u2.
Proof.
  revert u2; induction u1 as [a|a l IHl r IHr]; intros [b|b l' r']; cbn;
    try done.
  intros [Hl Hr]. f_equal; auto.
Qed.

(** In every state the loop reaches, the nodes of the initial store have
    the weight, value, left and right they had: the loop allocates nodes
    and assigns [parent] attributes, nothing else. *)
Lemma reachable_frame st nodes s :
  reachable st nodes s →
  length st ≤ length (heap s)
  ∧ ∀ a, valid st a →
      weight (heap s !!! a) = weight (st !!! a)
      ∧ value (heap s !!! a) = value (st !!! a)
      ∧ left (heap s !!! a) = left (st !!! a)
      ∧ right (heap s !!! a) = right (st !!! a).
Proof.
  induction 1 as [|s s' _ [IHl IH] Hbody]; [done|].
  apply loop_body_inr in Hbody as (L & cl & R & cr & q1 & q2 & _ & _ & ->).
  cbn. rewrite combine_length. split; [lia|]. intros a Ha.
  destruct (IH a Ha) as (<- & <- & <- & <-).
  assert (valid (heap s) a) as Ha' by (unfold valid in *; lia).
  by destruct (combine_frame (heap s) L R a Ha') as (-> & -> & -> & -> & _).
Qed.

(** ** Trees grown above any nodes *)

Lemma grown_root_valid st st' u :
  length st ≤ length st' → grown st st' u → valid st' (root u).
Proof.
  intros Hlen. destruct u; cbn; unfold valid, allocated; [lia|].
  intros ([??] & _). lia.
Qed.

Lemma grown_combine st0 st L R u :
  length st0 ≤ length st → grown st0 st u → grown st0 (combine st L R).2 u.
Proof.
  intros Hlen. induction u as [a|a l IHl r IHr]; cbn; [done|].
  intros ([Ha1 Ha2] & Hl & Hr & Hgl & Hgr).
  destruct (combine_frame st L R a Ha2) as (_ & _ & -> & -> & _).
  unfold allocated. rewrite combine_length. split_and!; auto with lia.
Qed.

Lemma grown_unique st st' u1 u2 :
  grown st st' u1 → grown st st' u2 → root u1 = root u2 → u1 = u2.
Proof.
  revert u2. induction u1 as [a|a l IHl r IHr]; intros [b|b l' r']; cbn.
  - by intros _ _ ->.
  - unfold valid, allocated. intros ? ([??] & _) ->. lia.
  - unfold valid, allocated. intros ([??] & _) ? ->. lia.
  - intros (_ & Hl & Hr & Hgl & Hgr) (_ & Hl' & Hr' & Hgl' & Hgr') ->.
    f_equal; [apply IHl|apply IHr]; try done; congruence.
Qed.

Lemma forest_inv_perm st0 nodes T q k s :
  q ≡ₚ queue s → forest_inv st0 nodes T s →
  forest_inv st0 nodes T (LoopState q k (heap s)).
Proof. intros Hq [H1 H2 H3]. split; simpl; by rewrite ?Hq. Qed.

Lemma forest_inv_init st nodes :
  Forall (valid st) nodes → forest_inv st nodes Leaf (init st nodes).
Proof.
  intros Hnodes.
  apply (forest_inv_perm _ _ _ _ _ (LoopState (number 0 nodes) 0 st));
    [apply heapify_perm|].
  split; simpl.
  - done.
  - apply Forall_forall. intros [a c] Ha. split; [done|]. simpl.
    rewrite Forall_forall in Hnodes. apply Hnodes.
    rewrite <-(number_fst 0 nodes). by apply (list_elem_of_fmap_2 fst) in Ha.
  - generalize 0. clear Hnodes.
    induction nodes as [|a nodes IH]; intros k; simpl; [done|]. by rewrite IH.
Qed.

Lemma forest_inv_step st0 nodes T s L cl q1 R cr q2 :
  forest_inv st0 nodes T s →
  heapq.heappop (entry_lt (heap s)) (queue s) = Ok ((L, cl), q1) →
  heapq.heappop (entry_lt (heap s)) q1 = Ok ((R, cr), q2) →
  forest_inv st0 nodes
    (graft T (length (heap s)) (Internal (length (heap s)) (T L) (T R)))
    (LoopState
       (heapq.heappush (entry_lt (combine (heap s) L R).2) q2
          (length (heap s), counter s))
       (S (counter s)) (combine (heap s) L R).2).
Proof.
  intros Hinv Hpop1 Hpop2.
  apply heappop_Ok in Hpop1 as [_ Hq1]. apply heappop_Ok in Hpop2 as [_ Hq2].
  assert (Hq : queue s ≡ₚ (L, cl) :: (R, cr) :: q2) by by rewrite <-Hq1, <-Hq2.
  set (st := heap s) in *. set (n := length st).
  apply forest_inv_perm
    with (s := LoopState ((n, counter s) :: q2) 0 (combine st L R).2);
    [apply heappush_perm|].
  apply (forest_inv_perm _ _ _ ((L, cl) :: (R, cr) :: q2) 0) in Hinv;
    [|by symmetry].
  destruct Hinv as [H1 H2 H3]; cbn in H1, H2, H3. fold st in H1, H2.
  apply Forall_cons in H2 as [[HrL HsL] H2].
  apply Forall_cons in H2 as [[HrR HsR] H2].
  cbn in HrL, HsL, HrR, HsR.
  assert (HvL : valid st L) by (rewrite <-HrL; by eapply grown_root_valid).
  assert (HvR : valid st R) by (rewrite <-HrR; by eapply grown_root_valid).
  assert (Hgraft : ∀ e, e ∈ q2 →
            graft T n (Internal n (T L) (T R)) e.1 = T e.1).
  { intros e He. unfold graft. case_decide as Hn; [|done].
    rewrite Forall_forall in H2. destruct (H2 e He) as [Hr Hs].
    eapply grown_root_valid in Hs; [|done]. unfold valid in Hs. lia. }
  assert (Hn : graft T n (Internal n (T L) (T R)) n = Internal n (T L) (T R)).
  { unfold graft. by rewrite decide_True. }
  assert (Hbind : ∀ f : tree → list nat,
            q2 ≫= (λ e, f (graft T n (Internal n (T L) (T R)) e.1))
            = q2 ≫= (λ e, f (T e.1))).
  { intros f. apply Forall_bind_ext, Forall_forall. intros; by rewrite Hgraft. }
  split; cbn.
  - rewrite combine_length. fold n. lia.
  - apply Forall_cons. cbn. rewrite Hn. split.
    + split; [done|]. cbn. unfold n. rewrite combine_new by done. cbn.
      unfold allocated. rewrite combine_length.
      split_and!; [done|lia|congruence|congruence|by apply grown_combine..].
    + apply Forall_forall. intros e He. rewrite Hgraft by done.
      rewrite Forall_forall in H2. destruct (H2 e He). split; [done|].
      by apply grown_combine.
  - rewrite Hn, Hbind. cbn. by rewrite <-H3, <-!app_assoc.
Qed.

Lemma reachable_forest_inv st nodes s :
  Forall (valid st) nodes →
  reachable st nodes s → ∃ T, forest_inv st nodes T s.
Proof.
  intros Hnodes. induction 1 as [|s s' _ [T IH] Hbody].
  - exists Leaf. by apply forest_inv_init.
  - apply loop_body_inr in Hbody as (L & cl & R & cr & q1 & q2 & H1 & H2 & ->).
    eexists. by eapply forest_inv_step.
Qed.

(** The call on a non-empty list of nodes of the store returns the root of
    a tree grown above the input nodes, which are its leaves. *)
Lemma build_tree_grown st nodes :
  Forall (valid st) nodes → nodes ≠ [] →
  ∃ r st' u, build_tree st nodes = Some (Returns r st')
             ∧ root u = r ∧ grown st st' u ∧ leaves u ≡ₚ nodes.
Proof.
  intros Hnodes Hne.
  destruct (build_tree_total st nodes) as [o Ho].
  destruct (build_tree_reachable _ _ _ Ho) as (s & Hs & Hbody).
  destruct (reachable_forest_inv _ _ _ Hnodes Hs) as [T [H1 H2 H3]].
  apply loop_body_inl in Hbody as [[Hq ->]|(a & c & Hq & ->)];
    rewrite Hq in *; cbn in H2, H3.
  { symmetry in H3. by apply Permutation_nil_r in H3. }
  rewrite app_nil_r in H3. rewrite Forall_singleton in H2.
  destruct H2 as [Hr Hg]. by exists a, (heap s), (T a).
Qed.
(** ** Two runs of [build_tree] on lists that hold their nodes alike *)

Lemma number_rel k l1 l2 (P : nat → nat → Prop) :
  Forall2 P l1 l2 →
  Forall2 (λ e1 e2, P e1.1 e2.1 ∧ e1.2 = e2.2) (number k l1) (number k l2).
Proof.
  intros H. revert k. induction H; intros k; cbn; [done|].
  apply Forall2_cons. split; [done|]. apply IHForall2.
Qed.

Section lockstep.
Context (st1 st2 : store) (nodes1 nodes2 : list ref).
Hypothesis Hv1 : Forall (valid st1) nodes1.
Hypothesis Hv2 : Forall (valid st2) nodes2.
Hypothesis Hal : same_aliasing nodes1 nodes2.
Hypothesis Hw :
  Forall2 (λ a b, weight (st1 !!! a) = weight (st2 !!! b)) nodes1 nodes2.

Local Abbreviation C := (corr st1 st2 nodes1 nodes2).
Local Abbreviation SIM := (run_sim st1 st2 nodes1 nodes2).

Lemma paired_valid a b :
  paired nodes1 nodes2 a b → valid st1 a ∧ valid st2 b.
Proof.
  intros (i & Ha & Hb). rewrite Forall_forall in Hv1, Hv2.
  split; [apply Hv1|apply Hv2]; by eapply list_elem_of_lookup_2.
Qed.

(** Corresponding nodes are equal in the one run exactly when they are in
    the other. *)
Lemma corr_inj a b a' b' : C a b → C a' b' → (a = a' ↔ b = b').
Proof.
  destruct Hal as [_ Hal'].
  intros [H|H] [H'|H'].
  - destruct H as (i & Ha & Hb), H' as (j & Ha' & Hb'). by eapply Hal'.
  - apply paired_valid in H as [??]. unfold valid in *. lia.
  - apply paired_valid in H' as [??]. unfold valid in *. lia.
  - lia.
Qed.

Lemma corr_allocated a b :
  C a b → length st1 ≤ a →
  length st2 ≤ b ∧ a - length st1 = b - length st2.
Proof.
  intros [[Ha _]%paired_valid|?] ?; [unfold valid in Ha|]; lia.
Qed.

Lemma corr_input a b : C a b → valid st1 a → paired nodes1 nodes2 a b.
Proof. intros [?|?] ?; [done|unfold valid in *; lia]. Qed.

Lemma corr_valid s1 s2 a b :
  SIM s1 s2 → C a b → valid (heap s1) a → valid (heap s2) b.
Proof.
  intros Hs [[_ Hb]%paired_valid|?] Ha.
  - pose proof (rs_len2 _ _ _ _ _ _ Hs). unfold valid in *. lia.
  - pose proof (rs_alloc _ _ _ _ _ _ Hs). unfold valid in *. lia.
Qed.

Lemma run_sim_init : SIM (init st1 nodes1) (init st2 nodes2).
Proof.
  pose proof Hal as [Hlen _].
  assert (∀ a, a ∈ nodes1 → a ∈ (queue (init st1 nodes1)).*1) as Hin.
  { intros a Ha. cbn. by rewrite heapify_perm, number_fst. }
  split; cbn; try done || lia.
  - apply heapify_rel.
    { intros x1 x2 y1 y2 (_ & Hx & _ & _ & Hwx) (_ & Hy & _ & _ & Hwy).
      apply entry_lt_rel; unfold key; congruence. }
    eapply Forall2_impl.
    + apply (number_rel 0 nodes1 nodes2
               (λ a b, C a b ∧ valid st1 a ∧ valid st2 b
                       ∧ weight (st1 !!! a) = weight (st2 !!! b))).
      apply Forall2_same_length_lookup_2; [done|]. intros i a b Ha Hb.
      assert (paired nodes1 nodes2 a b) as Hp by by exists i.
      destruct (paired_valid _ _ Hp). split_and!; try done; [by left|].
      by eapply (Forall2_lookup_lr _ _ _ i) in Hw.
    + intros e1 e2 ((? & ? & ? & ?) & ?). done.
  - intros n1 n2 _ [??]. lia.
  - intros a b _ (n & [??] & _). lia.
  - intros a b _ [??]. lia.
  - intros a Ha. left. by apply Hin.
  - rewrite (Permutation_length (heapify_perm _ _)), number_length. lia.
Qed.

Lemma merged_combine st0 st L R a :
  length st0 ≤ length st → merged st0 st a → merged st0 (combine st L R).2 a.
Proof.
  intros Hlen (n & [Hn1 Hn2] & Hc). exists n.
  destruct (combine_frame st L R n Hn2) as (_ & _ & -> & -> & _).
  unfold allocated. rewrite combine_length. auto with lia.
Qed.

(** An iteration that goes on in the one run goes on in the other, and
    the next states correspond. *)
Lemma run_sim_step s1 s2 L1 cl1 q1 R1 cr1 q2 :
  SIM s1 s2 →
  heapq.heappop (entry_lt (heap s1)) (queue s1) = Ok ((L1, cl1), q1) →
  heapq.heappop (entry_lt (heap s1)) q1 = Ok ((R1, cr1), q2) →
  ∃ L2 cl2 q1' R2 cr2 q2',
    heapq.heappop (entry_lt (heap s2)) (queue s2) = Ok ((L2, cl2), q1')
    ∧ heapq.heappop (entry_lt (heap s2)) q1' = Ok ((R2, cr2), q2')
    ∧ SIM
        (LoopState
           (heapq.heappush (entry_lt (combine (heap s1) L1 R1).2) q2
              (length (heap s1), counter s1))
           (S (counter s1)) (combine (heap s1) L1 R1).2)
        (LoopState
           (heapq.heappush (entry_lt (combine (heap s2) L2 R2).2) q2'
              (length (heap s2), counter s2))
           (S (counter s2)) (combine (heap s2) L2 R2).2).
Proof.
  intros Hsim Hpop1 Hpop2.
  pose proof Hsim as [Hk Hl1 Hl2 Hal' Hq Hch Hpa Hro Hin Hla Hco].
  set (h1 := heap s1) in *. set (h2 := heap s2) in *.
  set (Rel := λ e1 e2 : nat * nat,
         C e1.1 e2.1 ∧ e1.2 = e2.2 ∧ valid h1 e1.1 ∧ valid h2 e2.1
         ∧ weight (h1 !!! e1.1) = weight (h2 !!! e2.1)) in *.
  assert (Hlt : ∀ x1 x2 y1 y2, Rel x1 x2 → Rel y1 y2 →
            entry_lt h1 x1 y1 = entry_lt h2 x2 y2).
  { intros x1 x2 y1 y2 (_ & Hx & _ & _ & Hwx) (_ & Hy & _ & _ & Hwy).
    apply entry_lt_rel; unfold key; congruence. }
  pose proof (heappop_rel _ _ _ Hlt _ _ Hq) as Hp1. rewrite Hpop1 in Hp1.
  destruct (heapq.heappop (entry_lt h2) (queue s2)) as [[[L2 cl2] q1']|] eqn:E1;
    [|done].
  destruct Hp1 as [HL Hq1].
  pose proof (heappop_rel _ _ _ Hlt _ _ Hq1) as Hp2. rewrite Hpop2 in Hp2.
  destruct (heapq.heappop (entry_lt h2) q1') as [[[R2 cr2] q2']|] eqn:E2; [|done].
  destruct Hp2 as [HR Hq2].
  exists L2, cl2, q1', R2, cr2, q2'. split_and!; [done..|].
  destruct HL as (HcL & _ & HvL1 & HvL2 & HwL).
  destruct HR as (HcR & _ & HvR1 & HvR2 & HwR).
  cbn in HcL, HcR, HvL1, HvL2, HvR1, HvR2, HwL, HwR.
  apply heappop_Ok in Hpop1 as [_ Hperm1]. apply heappop_Ok in Hpop2 as [_ Hperm2].
  assert (queue s1 ≡ₚ (L1, cl1) :: (R1, cr1) :: q2) as Hperm
    by by rewrite <-Hperm1, <-Hperm2.
  set (n1 := length h1) in *. set (n2 := length h2) in *.
  assert (C n1 n2) as Hcn by (right; lia).
  assert (∀ a b, C a b → (a = L1 ∨ a = R1) ↔ (b = L2 ∨ b = R2)) as HLR.
  { intros a b Hab.
    pose proof (corr_inj _ _ _ _ Hab HcL). pose proof (corr_inj _ _ _ _ Hab HcR).
    tauto. }
  assert (∀ a b, C a b → a = n1 ↔ b = n2) as Hnn.
  { intros a b Hab. by apply corr_inj. }
  assert (left ((combine h1 L1 R1).2 !!! n1) = Some L1
          ∧ right ((combine h1 L1 R1).2 !!! n1) = Some R1
          ∧ parent ((combine h1 L1 R1).2 !!! n1) = None
          ∧ weight ((combine h1 L1 R1).2 !!! n1)
            = (weight (h1 !!! L1) + weight (h1 !!! R1))%Z)
    as (Hnl1 & Hnr1 & Hnp1 & Hnw1) by (unfold n1; by rewrite combine_new).
  assert (left ((combine h2 L2 R2).2 !!! n2) = Some L2
          ∧ right ((combine h2 L2 R2).2 !!! n2) = Some R2
          ∧ parent ((combine h2 L2 R2).2 !!! n2) = None
          ∧ weight ((combine h2 L2 R2).2 !!! n2)
            = (weight (h2 !!! L2) + weight (h2 !!! R2))%Z)
    as (Hnl2 & Hnr2 & Hnp2 & Hnw2) by (unfold n2; by rewrite combine_new).
  unfold valid in HvL1, HvL2, HvR1, HvR2.
  split; cbn [heap queue counter]; rewrite ?combine_length;
    fold n1; fold n2; try lia.
  - (* the queues *)
    apply heappush_rel.
    { intros x1 x2 y1 y2 (_ & Hx & _ & _ & Hwx) (_ & Hy & _ & _ & Hwy).
      apply entry_lt_rel; unfold key; congruence. }
    + eapply Forall2_impl; [exact Hq2|].
      intros e1 e2 (Hc & Hcnt & Hv1' & Hv2' & Hwe). unfold valid.
      rewrite !combine_length.
      destruct (combine_frame h1 L1 R1 e1.1 Hv1') as (-> & _).
      destruct (combine_frame h2 L2 R2 e2.1 Hv2') as (-> & _).
      unfold valid in *. split_and!; done || lia.
    + cbn. unfold valid. rewrite !combine_length. fold n1 n2.
      rewrite Hnw1, Hnw2, HwL, HwR. split_and!; done || lia.
  - (* the children of allocated nodes *)
    intros a b Hab [Ha1 Ha2]. rewrite combine_length in Ha2. fold n1 in Ha2.
    destruct (decide (a = n1)) as [->|Hne].
    + assert (b = n2) as -> by by apply (Hnn n1).
      exists L1, R1, L2, R2. split_and!; done || lia.
    + assert (b ≠ n2) as Hne' by (by rewrite <-(Hnn a b)).
      destruct (Hch a b Hab) as (l1 & r1 & l2 & r2 & ? & ? & ? & ? & ? & ? & ? & ?);
        [unfold allocated; fold n1; lia|].
      assert (valid h1 a) as Hva by (unfold valid; fold n1; lia).
      assert (valid h2 b) as Hvb by (by eapply corr_valid).
      destruct (combine_frame h1 L1 R1 a Hva) as (_ & _ & -> & -> & _).
      destruct (combine_frame h2 L2 R2 b Hvb) as (_ & _ & -> & -> & _).
      by exists l1, r1, l2, r2.
  - (* the parents of merged nodes *)
    intros a b Hab Hm.
    destruct (decide (a = L1 ∨ a = R1)) as [HaLR|HaLR].
    + assert (b = L2 ∨ b = R2) as HbLR by by apply (HLR a).
      assert (valid h1 a ∧ valid h2 b) as [Hva Hvb].
      { unfold valid. destruct HaLR as [->| ->], HbLR as [->| ->]; lia. }
      exists n1, n2. rewrite !combine_parent by done.
      rewrite !bool_decide_eq_true_2 by done. unfold allocated.
      rewrite combine_length. fold n1 n2. unfold valid in Hva.
      split_and!; done || lia.
    + assert (¬ (b = L2 ∨ b = R2)) as HbLR by by rewrite <-(HLR a).
      assert (merged st1 h1 a) as Hm'.
      { destruct Hm as (n & [Hn1 Hn2] & Hc). rewrite combine_length in Hn2.
        fold n1 in Hn2. destruct (decide (n = n1)) as [->|Hne].
        - rewrite Hnl1, Hnr1 in Hc. destruct HaLR.
          destruct Hc as [[= ->]|[= ->]]; auto.
        - exists n. assert (valid h1 n) as Hvn by (unfold valid; fold n1; lia).
          destruct (combine_frame h1 L1 R1 n Hvn) as (_ & _ & Hl & Hr & _).
          rewrite Hl, Hr in Hc. unfold allocated. fold n1. split; [lia|done]. }
      destruct (Hpa a b Hab Hm') as (p & q & Hp & Hq' & Hpq & [Hp1 Hp2] & Hap).
      exists p, q.
      rewrite !combine_parent by by eapply parent_valid.
      rewrite !bool_decide_eq_false_2 by done. unfold allocated.
      rewrite combine_length. fold n1 in Hp2 |- *. split_and!; done || lia.
  - (* the allocated nodes that were not merged *)
    intros a b Hab [Ha1 Ha2]. rewrite combine_length in Ha2. fold n1 in Ha2.
    destruct (decide (a = n1)) as [->|Hne].
    { assert (b = n2) as -> by by apply (Hnn n1). by left. }
    destruct (decide (a = L1 ∨ a = R1)) as [HaLR|HaLR].
    { right. exists n1. unfold allocated. rewrite combine_length. fold n1.
      split; [lia|]. rewrite Hnl1, Hnr1.
      destruct HaLR as [->| ->]; auto. }
    assert (¬ (b = L2 ∨ b = R2)) as HbLR by by rewrite <-(HLR a).
    assert (valid h1 a) as Hva by (unfold valid; fold n1; lia).
    assert (valid h2 b) as Hvb by (by eapply corr_valid).
    destruct (Hro a b Hab) as [[Hpa1 Hpa2]|Hm];
      [unfold allocated; fold n1; lia| |].
    + left. rewrite !combine_parent by done.
      by rewrite !bool_decide_eq_false_2.
    + right. by apply merged_combine.
  - (* the input nodes *)
    intros a Ha. rewrite heappush_perm. cbn.
    destruct (Hin a Ha) as [Hq'|Hm]; [|right; by apply merged_combine].
    rewrite Hperm in Hq'. cbn in Hq'.
    apply elem_of_cons in Hq' as [->|Hq'].
    { right. exists n1. unfold allocated. rewrite combine_length. fold n1.
      split; [lia|]. rewrite Hnl1. by left. }
    apply elem_of_cons in Hq' as [->|Hq'].
    { right. exists n1. unfold allocated. rewrite combine_length. fold n1.
      split; [lia|]. rewrite Hnr1. by right. }
    left. by apply list_elem_of_further.
  - (* the node allocated last *)
    intros _. rewrite heappush_perm. cbn. apply elem_of_cons. left. lia.
  - (* the count *)
    rewrite (Permutation_length (heappush_perm _ _ _)). cbn.
    apply Permutation_length in Hperm. cbn in Hperm. lia.
Qed.

(** Two runs that correspond end together, in states that correspond. *)
Lemma run_sim_loop fuel :
  nodes1 ≠ [] →
  ∀ s1 s2 o1,
    SIM s1 s2 → loop fuel s1 = Some o1 →
    ∃ s1' s2' r1 r2 c1 c2,
      SIM s1' s2' ∧ queue s1' = [(r1, c1)] ∧ queue s2' = [(r2, c2)]
      ∧ o1 = Returns r1 (heap s1')
      ∧ loop fuel s2 = Some (Returns r2 (heap s2')).
Proof.
  intros Hne. induction fuel as [|fuel IH]; intros s1 s2 o1 Hsim; [done|].
  cbn [loop]. destruct (loop_body s1) as [o|s1'] eqn:Hb1.
  - intros [= <-]. apply loop_body_inl in Hb1 as [[Hq _]|(a & c & Hq & ->)].
    { pose proof (rs_count _ _ _ _ _ _ Hsim) as Hc.
      pose proof (rs_last _ _ _ _ _ _ Hsim) as Hl.
      rewrite Hq in Hc, Hl. cbn in Hc, Hl.
      assert (length nodes1 ≠ 0) by (by destruct nodes1).
      apply elem_of_nil in Hl; [done|lia]. }
    pose proof (rs_queue _ _ _ _ _ _ Hsim) as Hq12. rewrite Hq in Hq12.
    apply Forall2_cons_inv_l in Hq12
      as ([b c'] & k2 & Hrel & ->%Forall2_nil_inv_l & Hq2).
    rewrite (loop_body_single s2 b c' Hq2).
    by exists s1, s2, a, b, c, c'.
  - intros Hloop.
    apply loop_body_inr in Hb1 as (L1 & cl1 & R1 & cr1 & q1 & q2 & H1 & H2 & ->).
    destruct (run_sim_step _ _ _ _ _ _ _ _ Hsim H1 H2)
      as (L2 & cl2 & q1' & R2 & cr2 & q2' & H1' & H2' & Hsim').
    rewrite (loop_body_pops _ _ _ _ _ _ _ H1' H2').
    by eapply IH.
Qed.

(** *** The states in which the two runs end *)

Lemma final_root s1 s2 r1 r2 c1 c2 :
  SIM s1 s2 → queue s1 = [(r1, c1)] → queue s2 = [(r2, c2)] →
  2 ≤ length nodes1 →
  C r1 r2 ∧ allocated st1 (heap s1) r1.
Proof.
  intros Hsim Hq1 Hq2 Htwo.
  pose proof (rs_queue _ _ _ _ _ _ Hsim) as Hq. rewrite Hq1, Hq2 in Hq.
  apply Forall2_cons_1 in Hq as [(Hc & _) _]. split; [done|].
  pose proof (rs_count _ _ _ _ _ _ Hsim) as Hc'.
  pose proof (rs_last _ _ _ _ _ _ Hsim) as Hl.
  rewrite Hq1 in Hc', Hl. cbn in Hc', Hl.
  apply list_elem_of_singleton in Hl; [|lia]. unfold allocated. lia.
Qed.

Lemma final_merged s1 s2 r1 r2 c1 c2 a :
  SIM s1 s2 → queue s1 = [(r1, c1)] → queue s2 = [(r2, c2)] →
  2 ≤ length nodes1 →
  a ∈ nodes1 → merged st1 (heap s1) a.
Proof.
  intros Hsim Hq1 Hq2 Htwo Ha.
  destruct (rs_inputs _ _ _ _ _ _ Hsim a Ha) as [Hq|Hm]; [|done].
  rewrite Hq1 in Hq. cbn in Hq. apply list_elem_of_singleton in Hq as ->.
  destruct (final_root _ _ _ _ _ _ Hsim Hq1 Hq2 Htwo) as [_ [Hr _]].
  rewrite Forall_forall in Hv1. apply Hv1 in Ha. unfold valid in Ha. lia.
Qed.

(** From corresponding allocated nodes the two loops of [code] collect the
    same turns, and end. *)
Lemma code_loop_allocated s1 s2 m :
  SIM s1 s2 →
  ∀ a b turns f1 f2,
    C a b → allocated st1 (heap s1) a → length (heap s1) - a ≤ m →
    m ≤ f1 → m ≤ f2 →
    ∃ c, code_loop f1 (heap s1) turns (Some a) = Some (Ok c)
         ∧ code_loop f2 (heap s2) turns (Some b) = Some (Ok c).
Proof.
  intros Hsim.
  induction m as [|m IH]; intros a b turns f1 f2 Hab [Ha1 Ha2] Hm Hf1 Hf2;
    [lia|].
  destruct f1 as [|f1]; [lia|]. destruct f2 as [|f2]; [lia|].
  cbn [code_loop].
  destruct (rs_root _ _ _ _ _ _ Hsim a b Hab) as [[-> ->]|Hmerged]; [done| |].
  { rewrite !code_loop_None. by eexists. }
  destruct (rs_parent _ _ _ _ _ _ Hsim a b Hab Hmerged)
    as (p & q & Hp & Hq & Hpq & Hpa & Hap).
  rewrite (direction_from_parent_Some _ _ _ Hp).
  rewrite (direction_from_parent_Some _ _ _ Hq). rewrite Hp, Hq.
  destruct (rs_children _ _ _ _ _ _ Hsim p q Hpq Hpa)
    as (l1 & x1 & l2 & x2 & Hl1 & _ & Hl2 & _ & Hl12 & _).
  rewrite Hl1, Hl2.
  assert (bool_decide (Some l1 = Some a) = bool_decide (Some l2 = Some b)) as ->.
  { apply bool_decide_ext. pose proof (corr_inj _ _ _ _ Hl12 Hab).
    split; intros [=]; f_equal; tauto. }
  apply IH; try done; lia.
Qed.

(** So the nodes at the same index of the two lists collect the same
    turns. *)
Lemma code_loop_paired s1 s2 r1 r2 c1 c2 a b :
  SIM s1 s2 → queue s1 = [(r1, c1)] → queue s2 = [(r2, c2)] →
  2 ≤ length nodes1 →
  paired nodes1 nodes2 a b →
  ∃ c, code_loop (S (length (heap s1))) (heap s1) [] (Some a) = Some (Ok c)
       ∧ code_loop (S (length (heap s2))) (heap s2) [] (Some b) = Some (Ok c).
Proof.
  intros Hsim Hq1 Hq2 Htwo Hab. assert (C a b) as Hc by by left.
  assert (a ∈ nodes1) as Ha.
  { destruct Hab as (i & Hi & _). by eapply list_elem_of_lookup_2. }
  destruct (rs_parent _ _ _ _ _ _ Hsim a b Hc
              (final_merged _ _ _ _ _ _ a Hsim Hq1 Hq2 Htwo Ha))
    as (p & q & Hp & Hq & Hpq & Hpa & Hap).
  cbn [code_loop].
  rewrite (direction_from_parent_Some _ _ _ Hp).
  rewrite (direction_from_parent_Some _ _ _ Hq). rewrite Hp, Hq.
  destruct (rs_children _ _ _ _ _ _ Hsim p q Hpq Hpa)
    as (l1 & x1 & l2 & x2 & Hl1 & _ & Hl2 & _ & Hl12 & _).
  rewrite Hl1, Hl2.
  assert (bool_decide (Some l1 = Some a) = bool_decide (Some l2 = Some b)) as ->.
  { apply bool_decide_ext. pose proof (corr_inj _ _ _ _ Hl12 Hc).
    split; intros [=]; f_equal; tauto. }
  pose proof (rs_alloc _ _ _ _ _ _ Hsim). pose proof (rs_len2 _ _ _ _ _ _ Hsim).
  destruct Hpa as [Hp1 Hp2].
  apply (code_loop_allocated s1 s2 (length (heap s1) - p)); try done; lia.
Qed.

(** Corresponding nodes are the roots of trees of the same form over the
    input nodes. *)
Lemma grown_similar s1 s2 m :
  SIM s1 s2 →
  ∀ a b, a < m → C a b → valid (heap s1) a →
    ∃ u1 u2, root u1 = a ∧ root u2 = b
             ∧ grown st1 (heap s1) u1 ∧ grown st2 (heap s2) u2
             ∧ similar (paired nodes1 nodes2) u1 u2.
Proof.
  intros Hsim. induction m as [|m IH]; intros a b Ham Hab Hva; [lia|].
  destruct (decide (a < length st1)) as [Hlt|Hge].
  - apply corr_input in Hab; [|done]. destruct (paired_valid _ _ Hab).
    by exists (Leaf a), (Leaf b).
  - assert (allocated st1 (heap s1) a) as Hal' by (unfold allocated, valid in *; lia).
    destruct (rs_children _ _ _ _ _ _ Hsim a b Hab Hal')
      as (l1 & x1 & l2 & x2 & Hl1 & Hx1 & Hl2 & Hx2 & Hl12 & Hx12 & ? & ?).
    destruct (IH l1 l2) as (ul1 & ul2 & <- & <- & ? & ? & ?);
      [lia|done|unfold valid in *; lia|].
    destruct (IH x1 x2) as (ux1 & ux2 & <- & <- & ? & ? & ?);
      [lia|done|unfold valid in *; lia|].
    exists (Internal a ul1 ux1), (Internal b ul2 ux2). cbn.
    destruct (corr_allocated _ _ Hab) as [??]; [lia|].
    pose proof (rs_alloc _ _ _ _ _ _ Hsim).
    unfold allocated, valid in *. split_and!; done || lia.
Qed.

(** Two runs of [build_tree] on lists of two or more nodes that hold
    their nodes alike, with equal weights index by index, return the roots
    of trees of the same form, and the loops of [code] collect the same
    turns from the nodes at the same index. *)
Lemma build_tree_lockstep :
  2 ≤ length nodes1 →
  ∃ r1 st1' u1 r2 st2' u2,
    build_tree st1 nodes1 = Some (Returns r1 st1')
    ∧ build_tree st2 nodes2 = Some (Returns r2 st2')
    ∧ root u1 = r1 ∧ grown st1 st1' u1 ∧ root u2 = r2 ∧ grown st2 st2' u2
    ∧ similar (paired nodes1 nodes2) u1 u2
    ∧ ∀ a b, paired nodes1 nodes2 a b →
        ∃ c, code_loop (S (length st1')) st1' [] (Some a) = Some (Ok c)
             ∧ code_loop (S (length st2')) st2' [] (Some b) = Some (Ok c).
Proof.
  intros Htwo. assert (nodes1 ≠ []) as Hne by (intros ->; cbn in Htwo; lia).
  destruct (build_tree_total st1 nodes1) as [o1 Ho1].
  pose proof Hal as [Hlen _].
  destruct (run_sim_loop _ Hne _ _ _ run_sim_init Ho1)
    as (s1 & s2 & r1 & r2 & c1 & c2 & Hsim & Hq1 & Hq2 & -> & Ho2).
  destruct (final_root _ _ _ _ _ _ Hsim Hq1 Hq2 Htwo) as [Hr [Hr1 Hr2]].
  destruct (grown_similar _ _ (S r1) Hsim r1 r2) as (u1 & u2 & ? & ? & ? & ? & ?);
    [lia|done|done|].
  exists r1, (heap s1), u1, r2, (heap s2), u2.
  unfold build_tree in *. rewrite <-Hlen. split_and!; try done.
  intros a b Hab. by eapply code_loop_paired.
Qed.
End lockstep.
(** ** Determinism *)

Lemma similar_leaves u1 u2 : similar eq u1 u2 → leaves u1 = leaves u2.
Proof.
  revert u2; induction u1 as [a|a l IHl r IHr]; intros [b|b l' r']; cbn;
    try done.
  - by intros ->.
  - intros [Hl Hr]. f_equal; auto.
Qed.

Lemma similar_impl (ρ ρ' : nat → nat → Prop) u1 u2 :
  (∀ a b, ρ a b → ρ' a b) → similar ρ u1 u2 → similar ρ' u1 u2.
Proof.
  intros Hρ. revert u2; induction u1 as [a|a l IHl r IHr]; intros [b|b l' r'];
    cbn; try done; [apply Hρ|].
  intros [Hl Hr]. auto.
Qed.

(** The store a call returns has the nodes of the store it was given, with
    the weight, value, left and right they had. *)
Lemma build_tree_keeps st nodes r st' :
  build_tree st nodes = Some (Returns r st') →
  length st ≤ length st'
  ∧ ∀ a, valid st a →
      weight (st' !!! a) = weight (st !!! a)
      ∧ value (st' !!! a) = value (st !!! a)
      ∧ left (st' !!! a) = left (st !!! a)
      ∧ right (st' !!! a) = right (st !!! a).
Proof.
  intros Hb. destruct (build_tree_reachable _ _ _ Hb) as (s & Hs & Hbody).
  assert (heap s = st') as <-.
  { apply loop_body_inl in Hbody as [[_ [=]]|(? & ? & _ & [= _ ->])]. done. }
  by apply (reachable_frame st nodes).
Qed.

(** A tree grown above leaves of the store is a tree of the store. *)
Lemma grown_shape st st' u :
  length st ≤ length st' → grown st st' u →
  (∀ a, a ∈ leaves u → is_leaf (st' !!! a) = true) → shape st' u.
Proof.
  intros Hlen. induction u as [a|a l IHl r IHr]; cbn.
  - intros Ha Hleaf. split; [unfold valid in *; lia|].
    apply Hleaf, elem_of_cons. by left.
  - intros ([_ Ha] & Hl & Hr & Hgl & Hgr) Hleaf. split_and!; try done.
    + apply IHl; [done|]. intros b Hb. apply Hleaf, elem_of_app. by left.
    + apply IHr; [done|]. intros b Hb. apply Hleaf, elem_of_app. by right.
Qed.

(** C7: [build_tree] called again on the same list of nodes, in the store
    the first call left, returns a tree of the same form with the same
    nodes at the same leaves, and every input node has the same code after
    the second call as after the first. This holds for every list of nodes
    of the store: nodes that occur more than once, nodes that are not
    leaves (whose [code] raises after either call) and nodes that have a
    parent from an earlier call included. On the empty list the call
    raises and leaves the store as it is, so a second call does the same.
    The trees are the ones grown above the input nodes: their leaves are
    the input nodes and their internal nodes the nodes the call allocated;
    what lies below an input node that is not a leaf is the same after both
    calls, and when all input nodes are leaves these are the trees of the
    store below the roots. From two input nodes on, the code of an input
    node that is a leaf is a string. (On the same list in the same store
    the call gives the same result by construction: it is a function of
    the two.) *)
Theorem build_tree_deterministic st nodes :
  Forall (valid st) nodes →
  (nodes = [] → build_tree st nodes = Some (Raises IndexError st))
  ∧ (nodes ≠ [] →
     ∃ r1 st1 u1 r2 st2 u2,
       build_tree st nodes = Some (Returns r1 st1)
       ∧ build_tree st1 nodes = Some (Returns r2 st2)
       ∧ root u1 = r1 ∧ grown st st1 u1 ∧ leaves u1 ≡ₚ nodes
       ∧ root u2 = r2 ∧ grown st1 st2 u2 ∧ leaves u2 = leaves u1
       ∧ erase u1 = erase u2
       ∧ (∀ a, valid st a →
            left (st2 !!! a) = left (st1 !!! a)
            ∧ right (st2 !!! a) = right (st1 !!! a))
       ∧ (Forall (λ a, is_leaf (st !!! a) = true) nodes →
          shape st1 u1 ∧ shape st2 u2)
       ∧ ∀ a, a ∈ nodes →
           code st1 a = code st2 a
           ∧ (2 ≤ length nodes → is_leaf (st !!! a) = true →
              ∃ c, code st1 a = Some (Ok c))).
Proof.
  intros Hv. split; [by intros ->|]. intros Hne.
  destruct (build_tree_grown st nodes Hv Hne) as (r1 & st1 & u1 & Hb1 & Hr1 & Hg1 & Hl1).
  destruct (decide (length nodes = 1)) as [Hone|Hmany].
  { destruct nodes as [|a [|??]]; try done.
    rewrite build_tree_one in Hb1. injection Hb1 as <- <-.
    exists a, st, u1, a, st, u1. rewrite build_tree_one.
    split_and!; try done; [|intros b _; split; [done|]; cbn; lia].
    intros Hleaf. rewrite Forall_singleton in Hleaf.
    assert (shape st u1); [|done]. apply (grown_shape st); [done..|].
    intros b Hb. rewrite Hl1 in Hb. by apply list_elem_of_singleton in Hb as ->. }
  assert (2 ≤ length nodes) as Htwo by (destruct nodes; cbn in *; [done|lia]).
  destruct (build_tree_keeps _ _ _ _ Hb1) as [Hlen Hframe].
  rewrite Forall_forall in Hv.
  assert (Forall (valid st1) nodes) as Hv'.
  { apply Forall_forall. intros a Ha%Hv. unfold valid in *. lia. }
  assert (same_aliasing nodes nodes) as Hal.
  { split; [done|]. intros i j a a' b b' Ha Ha' Hb Hb'. by simplify_eq. }
  assert (Forall2 (λ a b, weight (st !!! a) = weight (st1 !!! b)) nodes nodes)
    as Hw.
  { apply Forall2_same_length_lookup_2; [done|]. intros i a b Ha Hb.
    simplify_eq. destruct (Hframe a) as (-> & _); [|done].
    apply Hv. by eapply list_elem_of_lookup_2. }
  apply Forall_forall in Hv.
  destruct (build_tree_lockstep st st1 nodes nodes Hv Hv' Hal Hw Htwo)
    as (r1' & st1' & u1' & r2 & st2 & u2 & Hb1' & Hb2 & Hr1' & Hg1' & Hr2 & Hg2
        & Hsim & Hcode).
  rewrite Hb1 in Hb1'. injection Hb1' as <- <-.
  assert (u1' = u1) as -> by (apply (grown_unique st st1); congruence).
  assert (similar eq u1 u2) as Heq.
  { eapply similar_impl; [|exact Hsim]. intros a b (i & ? & ?). congruence. }
  destruct (build_tree_keeps _ _ _ _ Hb2) as [Hlen2 Hframe2].
  assert (leaves u2 = leaves u1) as Hl2 by (symmetry; by apply similar_leaves).
  exists r1, st1, u1, r2, st2, u2. split_and!; try done.
  - by eapply similar_erase.
  - intros a Ha. assert (valid st1 a) as Ha' by (unfold valid in *; lia).
    by destruct (Hframe2 a Ha') as (_ & _ & -> & ->).
  - intros Hleaf. rewrite Forall_forall in Hleaf, Hv, Hv'.
    assert (∀ a, a ∈ leaves u1 → is_leaf (st1 !!! a) = true) as Hleaf1.
    { intros a Ha. rewrite Hl1 in Ha. unfold is_leaf.
      destruct (Hframe a (Hv a Ha)) as (_ & _ & -> & ->). by apply Hleaf. }
    split; [by apply (grown_shape st)|]. apply (grown_shape st1); [done..|].
    intros a Ha. rewrite Hl2 in Ha. unfold is_leaf.
    assert (a ∈ nodes) as Ha' by by rewrite <-Hl1.
    destruct (Hframe2 a (Hv' a Ha')) as (_ & _ & -> & ->). by apply Hleaf1.
  - intros a Ha.
    assert (paired nodes nodes a a) as Hp.
    { apply list_elem_of_lookup_1 in Ha as [i Hi]. by exists i. }
    destruct (Hcode a a Hp) as (c & Hc1 & Hc2).
    rewrite Forall_forall in Hv, Hv'.
    destruct (Hframe a (Hv a Ha)) as (_ & _ & Hla & Hra).
    destruct (Hframe2 a (Hv' a Ha)) as (_ & _ & Hla2 & Hra2).
    unfold code, is_leaf. rewrite Hla2, Hra2, Hla, Hra.
    destruct (bool_decide (right (st !!! a) = None)
              && bool_decide (left (st !!! a) = None)) eqn:Hleaf; cbn [negb].
    + rewrite Hc1, Hc2. split; [done|]. by exists c.
    + split; [done|]. by intros _ [=].
Qed.

Lemma build_tree_deterministic_witness :
  let st := [__init__ 3 (PyStr "A") None None None;
             __init__ 7 (PyStr "B") None None None;
             __init__ 5 PyNone (Some 0) None None] in
  ∃ r1 st1 r2 st2,
    build_tree st [1; 0; 1; 2] = Some (Returns r1 st1)
    ∧ build_tree st1 [1; 0; 1; 2] = Some (Returns r2 st2)
    ∧ code st1 1 = code st2 1 ∧ code st1 2 = code st2 2
    ∧ ∃ c, code st1 0 = Some (Ok c).
Proof.
  intros st.
  assert (Hv : Forall (valid st) [1; 0; 1; 2])
    by (repeat constructor; unfold valid; simpl; lia).
  assert (Hne : [1; 0; 1; 2] ≠ []) by discriminate.
  destruct (proj2 (build_tree_deterministic st [1; 0; 1; 2] Hv) Hne)
    as (r1 & st1 & u1 & r2 & st2 & u2 & Hb1 & Hb2 & _ & _ & _ & _ & _ & _ & _
        & _ & _ & Hcode).
  exists r1, st1, r2, st2. split; [exact Hb1|]. split; [exact Hb2|].
  assert (H1 : 1 ∈ [1; 0; 1; 2]) by (apply elem_of_cons; by left).
  assert (H0 : 0 ∈ [1; 0; 1; 2])
    by (apply list_elem_of_further, elem_of_cons; by left).
  assert (H2 : 2 ∈ [1; 0; 1; 2])
    by (do 3 apply list_elem_of_further; apply elem_of_cons; by left).
  split; [exact (proj1 (Hcode 1 H1))|]. split; [exact (proj1 (Hcode 2 H2))|].
  apply (proj2 (Hcode 0 H0)); [simpl; lia|reflexivity].
Defined.

(** ** What an iteration of [build_tree] takes off the queue *)


(** ** The nodes [build_tree] allocates *)




(** ** What [build_tree] leaves as it is *)




(** ** The families [build_tree] makes *)






(** ** Walking down the tree along a code *)







(** ** Sums over the leaves of a tree *)







(** ** The codes fill the binary tree *)





(** ** Weighted path lengths *)











(** ** The tree of [build_tree] has the least weighted path length *)








(** ** One merge *)




(** ** Two input nodes *)



(** ** [code] on any chain of parents *)



(** ** Equality and hashing *)



(** ** The six comparisons *)

